(** * Microsoft skill: OAuth 2.0 PKCE authentication and token lifecycle

    A shallow embedding of [scripts/lib/auth.ts] and of the [auth] command of
    [scripts/microsoft.ts].  Pure helpers are Rocq functions; code that
    touches the file system, the clock, the network, the random source or the
    process is written in a small state-and-outcome monad over an explicit
    [World].

    What stands outside the embedding: the text of JSON files (a file holds
    a value of one of three shapes), URL parsing and percent-encoding (a
    request arrives as a path and its decoded query pairs), the
    normalisation done by [path.join], and the binding of port 3000, taken
    to succeed.  The event loop of the runtime is a function over the
    requests still to arrive, each with its delay, and one timer. *)

From Stdlib Require Import ZArith List String Ascii Bool Lia.
From stdpp Require Import base option gmap strings list.

Import ListNotations.
Local Open Scope string_scope.
Local Open Scope Z_scope.

(** ** Bytes and the encodings of [Buffer.toString]

    A byte is a [Z] in [0, 256).  A JavaScript string made of ASCII
    characters is a Rocq [string]; hashing it feeds its character codes. *)

Module Encoding.

Definition is_byte (b : Z) : Prop := 0 <= b < 256.

Definition bytes_of_string (s : string) : list Z :=
  map (fun c => Z.of_N (N_of_ascii c)) (list_ascii_of_string s).

(** The URL-safe alphabet of RFC 4648, section 5. *)
Definition base64url_alphabet : list ascii :=
  list_ascii_of_string
    "ABCDEFGHIJKLMNOPQRSTUVWXYZabcdefghijklmnopqrstuvwxyz0123456789-_".

Definition pad_char : ascii := "="%char.

Definition sextet_char (i : Z) : ascii :=
  nth (Z.to_nat i) base64url_alphabet "A"%char.

(** [buf.toString("base64url")]: three bytes become four characters, a
    trailing group of one or two bytes becomes two or three characters, and
    no padding character is emitted. *)
Fixpoint base64url_chars (bs : list Z) : list ascii :=
  match bs with
  | a :: b :: c :: rest =>
      sextet_char (Z.shiftr a 2)
      :: sextet_char (Z.lor (Z.shiftl (Z.land a 3) 4) (Z.shiftr b 4))
      :: sextet_char (Z.lor (Z.shiftl (Z.land b 15) 2) (Z.shiftr c 6))
      :: sextet_char (Z.land c 63)
      :: base64url_chars rest
  | [a; b] =>
      [ sextet_char (Z.shiftr a 2);
        sextet_char (Z.lor (Z.shiftl (Z.land a 3) 4) (Z.shiftr b 4));
        sextet_char (Z.shiftl (Z.land b 15) 2) ]
  | [a] =>
      [ sextet_char (Z.shiftr a 2);
        sextet_char (Z.shiftl (Z.land a 3) 4) ]
  | [] => []
  end.

Definition base64url (bs : list Z) : string :=
  string_of_list_ascii (base64url_chars bs).

Definition hex_digits : list ascii := list_ascii_of_string "0123456789abcdef".

Definition nibble_char (i : Z) : ascii := nth (Z.to_nat i) hex_digits "0"%char.

(** [buf.toString("hex")]: two lower-case digits per byte. *)
Definition hex_chars (bs : list Z) : list ascii :=
  flat_map (fun b => [nibble_char (Z.shiftr b 4); nibble_char (Z.land b 15)]) bs.

Definition hex (bs : list Z) : string := string_of_list_ascii (hex_chars bs).

End Encoding.

(** ** SHA-256 (FIPS 180-4), the digest behind [crypto.createHash("sha256")] *)

Module Sha256.

Definition mask32 : Z := 0xFFFFFFFF.
Definition wrap (x : Z) : Z := Z.land x mask32.
Definition plus32 (x y : Z) : Z := wrap (x + y).
Definition rotr (n x : Z) : Z :=
  Z.lor (Z.shiftr x n) (wrap (Z.shiftl x (32 - n))).

Definition choose (e f g : Z) : Z :=
  Z.lxor (Z.land e f) (Z.land (Z.lxor e mask32) g).
Definition majority (a b c : Z) : Z :=
  Z.lxor (Z.lxor (Z.land a b) (Z.land a c)) (Z.land b c).
Definition big_sigma0 (a : Z) : Z :=
  Z.lxor (Z.lxor (rotr 2 a) (rotr 13 a)) (rotr 22 a).
Definition big_sigma1 (e : Z) : Z :=
  Z.lxor (Z.lxor (rotr 6 e) (rotr 11 e)) (rotr 25 e).
Definition small_sigma0 (x : Z) : Z :=
  Z.lxor (Z.lxor (rotr 7 x) (rotr 18 x)) (Z.shiftr x 3).
Definition small_sigma1 (x : Z) : Z :=
  Z.lxor (Z.lxor (rotr 17 x) (rotr 19 x)) (Z.shiftr x 10).

Definition round_constants : list Z :=
  [ 1116352408; 1899447441; 3049323471; 3921009573;
    961987163; 1508970993; 2453635748; 2870763221;
    3624381080; 310598401; 607225278; 1426881987;
    1925078388; 2162078206; 2614888103; 3248222580;
    3835390401; 4022224774; 264347078; 604807628;
    770255983; 1249150122; 1555081692; 1996064986;
    2554220882; 2821834349; 2952996808; 3210313671;
    3336571891; 3584528711; 113926993; 338241895;
    666307205; 773529912; 1294757372; 1396182291;
    1695183700; 1986661051; 2177026350; 2456956037;
    2730485921; 2820302411; 3259730800; 3345764771;
    3516065817; 3600352804; 4094571909; 275423344;
    430227734; 506948616; 659060556; 883997877;
    958139571; 1322822218; 1537002063; 1747873779;
    1955562222; 2024104815; 2227730452; 2361852424;
    2428436474; 2756734187; 3204031479; 3329325298 ].

(** The eight working variables [a .. h]. *)
Record hstate := HState {
  ha : Z; hb : Z; hc : Z; hd : Z; he : Z; hf : Z; hg : Z; hh : Z }.

Definition initial_hash : hstate :=
  HState 1779033703 3144134277 1013904242 2773480762
         1359893119 2600822924 528734635 1541459225.

(** Message padding: a one bit, zeros up to 56 modulo 64, then the bit length
    as a 64-bit big-endian integer. *)
Definition be_bytes (width : nat) (x : Z) : list Z :=
  map (fun i => Z.land (Z.shiftr x (8 * Z.of_nat i)) 255) (rev (seq 0 width)).

Definition pad (msg : list Z) : list Z :=
  let len := Z.of_nat (length msg) in
  let zeros := Z.to_nat ((55 - len) mod 64) in
  msg ++ [128] ++ repeat 0 zeros ++ be_bytes 8 (8 * len).

Fixpoint words_of_bytes (bs : list Z) : list Z :=
  match bs with
  | a :: b :: c :: d :: rest =>
      Z.lor (Z.lor (Z.shiftl a 24) (Z.shiftl b 16)) (Z.lor (Z.shiftl c 8) d)
      :: words_of_bytes rest
  | _ => []
  end.

(** The message schedule, newest word first: [extend_schedule n rev_w] adds
    [n] words to the reversed prefix [rev_w]. *)
Fixpoint extend_schedule (n : nat) (rev_w : list Z) : list Z :=
  match n with
  | O => rev_w
  | S n' =>
      let w2 := nth 1 rev_w 0 in
      let w7 := nth 6 rev_w 0 in
      let w15 := nth 14 rev_w 0 in
      let w16 := nth 15 rev_w 0 in
      let w := plus32 (plus32 (small_sigma1 w2) w7)
                      (plus32 (small_sigma0 w15) w16) in
      extend_schedule n' (w :: rev_w)
  end.

Definition schedule (block : list Z) : list Z :=
  rev (extend_schedule 48 (rev block)).

Definition round (s : hstate) (kw : Z * Z) : hstate :=
  let '(k, w) := kw in
  let t1 := plus32 (plus32 (plus32 (hh s) (big_sigma1 (he s)))
                           (plus32 (choose (he s) (hf s) (hg s)) k)) w in
  let t2 := plus32 (big_sigma0 (ha s)) (majority (ha s) (hb s) (hc s)) in
  HState (plus32 t1 t2) (ha s) (hb s) (hc s)
         (plus32 (hd s) t1) (he s) (hf s) (hg s).

Definition compress (s : hstate) (block : list Z) : hstate :=
  let r := fold_left round (combine round_constants (schedule block)) s in
  HState (plus32 (ha s) (ha r)) (plus32 (hb s) (hb r))
         (plus32 (hc s) (hc r)) (plus32 (hd s) (hd r))
         (plus32 (he s) (he r)) (plus32 (hf s) (hf r))
         (plus32 (hg s) (hg r)) (plus32 (hh s) (hh r)).

(** Blocks of sixteen words; [fuel] bounds the number of blocks. *)
Fixpoint absorb (fuel : nat) (s : hstate) (ws : list Z) : hstate :=
  match fuel with
  | O => s
  | S fuel' =>
      match ws with
      | [] => s
      | _ => absorb fuel' (compress s (firstn 16 ws)) (skipn 16 ws)
      end
  end.

Definition digest_bytes (s : hstate) : list Z :=
  flat_map (be_bytes 4)
    [ha s; hb s; hc s; hd s; he s; hf s; hg s; hh s].

Definition sha256 (msg : list Z) : list Z :=
  let ws := words_of_bytes (pad msg) in
  digest_bytes (absorb (length ws) initial_hash ws).

End Sha256.

Import Encoding.

(** ** JavaScript values

    A field that may be [undefined] is an [option]; [truthy] is the test
    behind [if (x)], [x && y] and [x || y]: a string is truthy when it is
    defined and not empty, a number when it is defined and not zero. *)

Definition truthy (v : option string) : bool :=
  match v with
  | Some s => negb (String.eqb s EmptyString)
  | None => false
  end.

Definition truthy_num (v : option Z) : bool :=
  match v with
  | Some n => negb (Z.eqb n 0)
  | None => false
  end.

(** [a || b] on strings that may be undefined, and on numbers. *)
Definition js_or (a b : option string) : option string :=
  if truthy a then a else b.

Definition js_or_num (a : option Z) (b : Z) : Z :=
  if truthy_num a then default b a else b.

(** Template interpolation [`${v}`] of a possibly undefined string. *)
Definition js_show (v : option string) : string := default "undefined" v.

(** ** Types of [auth.ts] *)

Record Credentials := {
  client_id : string;
  client_secret : string }.

(** [TokenData].  The interface declares every field a [string], but
    [performAuth] copies provider fields unguarded, so a string field is
    [undefined] at run time when the provider left it out. *)
Record TokenData := {
  access_token : option string;
  refresh_token : option string;
  expires_at : Z;
  scope : option string;
  token_type : option string }.

(** The body of a token-endpoint response, [data] in the source (typed
    [any]): each field the code reads, absent or present. *)
Record ProviderResponse := {
  r_error : option string;
  r_error_description : option string;
  r_access_token : option string;
  r_refresh_token : option string;
  r_expires_in : option Z;
  r_scope : option string;
  r_token_type : option string }.

(** An inbound HTTP request after [new URL(req.url, base)]: its path and the
    decoded query pairs in order.  [searchParams.get] returns the first value
    of a name, or [null]. *)
Record Request := {
  req_path : string;
  req_query : list (string * string) }.

Fixpoint searchParams_get (name : string) (q : list (string * string))
  : option string :=
  match q with
  | [] => None
  | (k, v) :: rest =>
      if String.eqb k name then Some v else searchParams_get name rest
  end.

Record HttpResponse := {
  status : Z;
  content_type : option string;
  body : string }.

(** Thrown values.  [JsError m] is [new Error(m)]; [FetchFailed] is a
    rejected [fetch] or an unreadable response body; [MalformedFile p] is a
    [JSON.parse] of file content that is not of the expected shape;
    [ENOENT p] is a read of a missing file. *)
Inductive exn :=
  | JsError (message : string)
  | FetchFailed
  | MalformedFile (path : string)
  | ENOENT (path : string).

(** The errors of the flow, by the names the specification gives them. *)
Definition CredentialsNotFound : exn :=
  JsError "No credentials found. Run: pnpm tsx scripts/microsoft.ts setup".
Definition TokenNotFound : exn :=
  JsError "Token not found. Run: pnpm tsx scripts/microsoft.ts auth".
Definition ProviderDenied (message : string) : exn := JsError message.
Definition StateMismatch : exn := JsError "State mismatch".
Definition AuthTimeout : exn := JsError "Timeout".

(** The promise created by [new Promise((resolve, reject) => ...)]. *)
Inductive settlement :=
  | Pending
  | Resolved (code : string)
  | Rejected (e : exn).

(** The callback listener: the HTTP server, the pending [setTimeout] (its
    deadline, when armed), the promise and the responses written so far
    (newest first). *)
Record Listener := {
  listening : bool;
  timer : option Z;
  promise : settlement;
  replies : list HttpResponse }.

(** File contents, by shape: a serialised token record, a credentials
    object (either field possibly missing), or plain text. *)
Inductive file :=
  | FToken (t : TokenData)
  | FCreds (id secret : option string)
  | FText (s : string).

(** One scripted answer of the token endpoint, with the time it takes. *)
Inductive reply :=
  | Reply (latency : N) (data : ProviderResponse)
  | NetworkFailure (latency : N).

(** ** The world the program runs in *)

(** What the process finds around itself and never changes. *)
Record Env := {
  cwd : string;                        (* process.cwd() *)
  homedir : string;                    (* os.homedir() *)
  xdg_config_home : option string;     (* process.env.XDG_CONFIG_HOME *)
  platform : string;                   (* process.platform *)
  op_installed : bool;                 (* `op --version` succeeds *)
  op_vault : gmap string string;       (* `op read`, output trimmed *)
  entropy : nat -> Z }.                (* the CSPRNG's byte stream *)

Record World := {
  env : Env;
  cursor : nat;                        (* random bytes drawn so far *)
  fs : gmap string file;
  clock : Z;                           (* Date.now(), milliseconds *)
  endpoint : list reply;               (* answers of the token endpoint *)
  sent : list (list (string * string));(* form bodies POSTed, newest first *)
  inbox : list (N * Request);          (* requests to come, with delays *)
  listener : Listener;
  spawned : list (string * list string);
  stderr : list string;
  stdout : list string }.

Definition set_cursor (n : nat) (w : World) : World :=
  {| env := env w; cursor := n; fs := fs w; clock := clock w;
     endpoint := endpoint w; sent := sent w; inbox := inbox w;
     listener := listener w; spawned := spawned w; stderr := stderr w;
     stdout := stdout w |}.

Definition set_fs (m : gmap string file) (w : World) : World :=
  {| env := env w; cursor := cursor w; fs := m; clock := clock w;
     endpoint := endpoint w; sent := sent w; inbox := inbox w;
     listener := listener w; spawned := spawned w; stderr := stderr w;
     stdout := stdout w |}.

Definition set_clock (t : Z) (w : World) : World :=
  {| env := env w; cursor := cursor w; fs := fs w; clock := t;
     endpoint := endpoint w; sent := sent w; inbox := inbox w;
     listener := listener w; spawned := spawned w; stderr := stderr w;
     stdout := stdout w |}.

Definition set_net (rs : list reply) (reqs : list (list (string * string)))
  (w : World) : World :=
  {| env := env w; cursor := cursor w; fs := fs w; clock := clock w;
     endpoint := rs; sent := reqs; inbox := inbox w; listener := listener w;
     spawned := spawned w; stderr := stderr w; stdout := stdout w |}.

Definition set_inbox (evs : list (N * Request)) (w : World) : World :=
  {| env := env w; cursor := cursor w; fs := fs w; clock := clock w;
     endpoint := endpoint w; sent := sent w; inbox := evs;
     listener := listener w; spawned := spawned w; stderr := stderr w;
     stdout := stdout w |}.

Definition set_listener (l : Listener) (w : World) : World :=
  {| env := env w; cursor := cursor w; fs := fs w; clock := clock w;
     endpoint := endpoint w; sent := sent w; inbox := inbox w; listener := l;
     spawned := spawned w; stderr := stderr w; stdout := stdout w |}.

Definition set_spawned (ps : list (string * list string)) (w : World)
  : World :=
  {| env := env w; cursor := cursor w; fs := fs w; clock := clock w;
     endpoint := endpoint w; sent := sent w; inbox := inbox w;
     listener := listener w; spawned := ps; stderr := stderr w;
     stdout := stdout w |}.

Definition set_stderr (ls : list string) (w : World) : World :=
  {| env := env w; cursor := cursor w; fs := fs w; clock := clock w;
     endpoint := endpoint w; sent := sent w; inbox := inbox w;
     listener := listener w; spawned := spawned w; stderr := ls;
     stdout := stdout w |}.

Definition set_stdout (ls : list string) (w : World) : World :=
  {| env := env w; cursor := cursor w; fs := fs w; clock := clock w;
     endpoint := endpoint w; sent := sent w; inbox := inbox w;
     listener := listener w; spawned := spawned w; stderr := stderr w;
     stdout := ls |}.

(** ** The monad of asynchronous code

    A computation ends by returning a value, by throwing, or by ending the
    process with [process.exit]; an exit is not an exception and no [catch]
    sees it.  [Hangs] is an [await] on a promise that nothing will settle. *)

Inductive outcome (A : Type) :=
  | Returns (a : A) (w : World)
  | Throws (e : exn) (w : World)
  | Exits (code : Z) (w : World)
  | Hangs (w : World).
Arguments Returns {A} a w.
Arguments Throws {A} e w.
Arguments Exits {A} code w.
Arguments Hangs {A} w.

Definition M (A : Type) : Type := World -> outcome A.

Definition ret {A} (a : A) : M A := fun w => Returns a w.

Definition bind {A B} (m : M A) (k : A -> M B) : M B :=
  fun w =>
    match m w with
    | Returns a w' => k a w'
    | Throws e w' => Throws e w'
    | Exits c w' => Exits c w'
    | Hangs w' => Hangs w'
    end.

Definition throw {A} (e : exn) : M A := fun w => Throws e w.

Definition process_exit {A} (code : Z) : M A := fun w => Exits code w.

(** [try { m } catch (e) { h e }]. *)
Definition try_catch {A} (m : M A) (h : exn -> M A) : M A :=
  fun w =>
    match m w with
    | Throws e w' => h e w'
    | other => other
    end.

Definition gets {A} (f : World -> A) : M A := fun w => Returns (f w) w.
Definition modify (f : World -> World) : M unit := fun w => Returns tt (f w).

(** The [x ← m; k] and [m;; k] notations of stdpp are used for [bind]. *)
#[global] Instance M_ret : MRet M := @ret.
#[global] Instance M_bind : MBind M := fun A B k m => bind m k.

Definition final_world {A} (o : outcome A) : World :=
  match o with
  | Returns _ w | Throws _ w | Exits _ w | Hangs w => w
  end.

(** ** Configuration *)

(** [path.join], without the normalisation of [.] and [..] segments. *)
Definition path_join (a b : string) : string := a +:+ "/" +:+ b.

Definition nl : string := String (ascii_of_nat 10) EmptyString.

Definition OP_CLIENT_ID_REF : string :=
  "op://Personal/Microsoft Client ID/notesPlain".
Definition OP_CLIENT_SECRET_REF : string :=
  "op://Personal/Microsoft Client Secret/notesPlain".

Definition getGlobalConfigDir (e : Env) : string :=
  let xdgConfig :=
    if truthy (xdg_config_home e) then js_show (xdg_config_home e)
    else path_join (homedir e) ".config" in
  path_join xdgConfig "microsoft-skill".

Definition GLOBAL_CONFIG_DIR : Env -> string := getGlobalConfigDir.
Definition CREDENTIALS_PATH (e : Env) : string :=
  path_join (GLOBAL_CONFIG_DIR e) "credentials.json".

Definition PROJECT_TOKEN_DIR : string := ".claude".
Definition PROJECT_TOKEN_FILE : string := "microsoft-skill.local.json".
Definition GLOBAL_TOKEN_FILE : string := "tokens.json".

Definition getProjectTokenPath (e : Env) : string :=
  path_join (path_join (cwd e) PROJECT_TOKEN_DIR) PROJECT_TOKEN_FILE.

Definition getGlobalTokenPath (e : Env) : string :=
  path_join (GLOBAL_CONFIG_DIR e) GLOBAL_TOKEN_FILE.

(** The path [saveToken] and [performAuth] compute from the [global] flag. *)
Definition token_path (global : bool) (e : Env) : string :=
  if global then getGlobalTokenPath e else getProjectTokenPath e.

Arguments getProjectTokenPath : simpl never.
Arguments getGlobalTokenPath : simpl never.
Arguments CREDENTIALS_PATH : simpl never.

Definition MS_AUTH_URL : string :=
  "https://login.microsoftonline.com/common/oauth2/v2.0/authorize".
Definition MS_TOKEN_URL : string :=
  "https://login.microsoftonline.com/common/oauth2/v2.0/token".
Definition CALLBACK_URL : string := "http://localhost:3000/callback".
Definition PORT : Z := 3000.
Definition SCOPES : string := "User.Read Mail.Read offline_access".

(** The delay given to [setTimeout] in [performAuth], in milliseconds. *)
Definition CALLBACK_TIMEOUT_MS : Z := 300000.

(** ** Primitive effects *)

Definition console_error (line : string) : M unit :=
  modify (fun w => set_stderr (line :: stderr w) w).

Definition console_log (line : string) : M unit :=
  modify (fun w => set_stdout (line :: stdout w) w).

Definition date_now : M Z := gets clock.

(** [fs.access]: succeeds when the path exists. *)
Definition fs_access (p : string) : M unit :=
  fun w =>
    match fs w !! p with
    | Some _ => Returns tt w
    | None => Throws (ENOENT p) w
    end.

Definition readFile (p : string) : M file :=
  fun w =>
    match fs w !! p with
    | Some f => Returns f w
    | None => Throws (ENOENT p) w
    end.

Definition writeFile (p : string) (f : file) : M unit :=
  modify (fun w => set_fs (<[p := f]> (fs w)) w).

(** [fs.mkdir(path.dirname(p), { recursive: true })]: the file system is a
    flat map from paths to files, so there is nothing to create. *)
Definition mkdir_dirname (p : string) : M unit := ret tt.

(** [JSON.parse(content) as TokenData], on content of that shape. *)
Definition parse_token (p : string) (f : file) : M TokenData :=
  match f with
  | FToken t => ret t
  | _ => throw (MalformedFile p)
  end.

Definition parse_credentials (p : string) (f : file)
  : M (option string * option string) :=
  match f with
  | FCreds id secret => ret (id, secret)
  | _ => throw (MalformedFile p)
  end.

Definition file_text (p : string) (f : file) : M string :=
  match f with
  | FText s => ret s
  | _ => throw (MalformedFile p)
  end.

(** [crypto.randomBytes(n)]: the next [n] bytes of the stream. *)
Definition randomBytes (n : nat) : M (list Z) :=
  fun w =>
    Returns (map (fun i => entropy (env w) i mod 256) (seq (cursor w) n))
            (set_cursor (cursor w + n)%nat w).

Definition spawn (command : string) (args : list string) : M unit :=
  modify (fun w => set_spawned ((command, args) :: spawned w) w).

(** *** The listener's three mutations *)

Definition server_close (l : Listener) : Listener :=
  {| listening := false; timer := timer l; promise := promise l;
     replies := replies l |}.

(** [resolve] and [reject]: a promise settles once; later calls change
    nothing. *)
Definition settle (s : settlement) (l : Listener) : Listener :=
  match promise l with
  | Pending =>
      {| listening := listening l; timer := timer l; promise := s;
         replies := replies l |}
  | _ => l
  end.

(** [res.writeHead(...)] followed by [res.end(...)]. *)
Definition respond (r : HttpResponse) (l : Listener) : Listener :=
  {| listening := listening l; timer := timer l; promise := promise l;
     replies := r :: replies l |}.

(** The timer leaves the pending set when it fires. *)
Definition timer_fired (l : Listener) : Listener :=
  {| listening := listening l; timer := None; promise := promise l;
     replies := replies l |}.

(** The request callback given to [http.createServer] in [performAuth];
    [state] is the value the closure captured. *)
Definition handler (state : string) (req : Request) (l : Listener) : Listener :=
  let returnedCode := searchParams_get "code" (req_query req) in
  let returnedState := searchParams_get "state" (req_query req) in
  let error := searchParams_get "error" (req_query req) in
  if truthy error then
    settle (Rejected (JsError (js_show error)))
      (server_close
         (respond {| status := 400; content_type := None;
                     body := "Error: " +:+ js_show error |} l))
  else if negb (bool_decide (returnedState = Some state)) then
    settle (Rejected (JsError "State mismatch"))
      (server_close
         (respond {| status := 400; content_type := None;
                     body := "Error: State mismatch" |} l))
  else if truthy returnedCode then
    settle (Resolved (js_show returnedCode))
      (server_close
         (respond {| status := 200; content_type := Some "text/html";
                     body := "<h1>Success!</h1><p>You can close this window.</p>" |}
                  l))
  else
    respond {| status := 404; content_type := None; body := EmptyString |} l.

(** The callback given to [setTimeout] in [performAuth]. *)
Definition on_timeout (l : Listener) : Listener :=
  settle (Rejected (JsError "Timeout")) (server_close (timer_fired l)).

(** A closed server accepts no connection: the request is never seen. *)
Definition dispatch (state : string) (req : Request) (l : Listener) : Listener :=
  if listening l then handler state req l else l.

(** Time passes by [d] milliseconds; a timer that has come due fires. *)
Definition elapse (d : N) : M unit :=
  modify (fun w =>
    let t := clock w + Z.of_N d in
    let l := listener w in
    let l' := match timer l with
              | Some deadline => if deadline <=? t then on_timeout l else l
              | None => l
              end in
    set_listener l' (set_clock t w)).

(** The event loop while the code promise is awaited: requests are served
    in order of arrival until the promise settles; the timer fires before a
    request that arrives at or after its deadline, and when nothing else is
    left to arrive.  Returns the requests not served, the time and the
    listener. *)
Fixpoint event_loop (state : string) (evs : list (N * Request)) (t : Z)
  (l : Listener) : list (N * Request) * Z * Listener :=
  match promise l with
  | Pending =>
      match evs with
      | [] =>
          match timer l with
          | Some deadline => ([], Z.max t deadline, on_timeout l)
          | None => ([], t, l)
          end
      | (d, r) :: rest =>
          let t' := t + Z.of_N d in
          match timer l with
          | Some deadline =>
              if deadline <=? t' then (evs, Z.max t deadline, on_timeout l)
              else event_loop state rest t' (dispatch state r l)
          | None => event_loop state rest t' (dispatch state r l)
          end
      end
  | _ => (evs, t, l)
  end.

(** [fetch(MS_TOKEN_URL, { method: "POST", body: form })] followed by
    [response.json()]. *)
Definition fetch_token (form : list (string * string)) : M ProviderResponse :=
  fun w =>
    let w1 := set_net (tl (endpoint w)) (form :: sent w) w in
    match endpoint w with
    | [] => Throws FetchFailed w1
    | Reply d data :: _ => (elapse d;; ret data) w1
    | NetworkFailure d :: _ => (elapse d;; throw FetchFailed) w1
    end.

(** ** 1Password integration *)

Definition is1PasswordAvailable : M bool :=
  gets (fun w => op_installed (env w)).

(** [readFrom1Password]: the trimmed output of [op read], or [null] when the
    command fails. *)
Definition readFrom1Password (reference : string) : M (option string) :=
  gets (fun w => if op_installed (env w) then op_vault (env w) !! reference
                else None).

Definition loadCredentialsFrom1Password : M (option Credentials) :=
  clientId ← readFrom1Password OP_CLIENT_ID_REF;
  clientSecret ← readFrom1Password OP_CLIENT_SECRET_REF;
  if truthy clientId && truthy clientSecret then
    ret (Some {| client_id := js_show clientId;
                 client_secret := js_show clientSecret |})
  else ret None.

(** ** Credential and token management *)

Definition loadCredentials : M Credentials :=
  fromFile ← try_catch
    (path ← gets (fun w => CREDENTIALS_PATH (env w));
     content ← readFile path;
     data ← parse_credentials path content;
     if truthy data.1 && truthy data.2 then
       ret (Some {| client_id := js_show data.1;
                    client_secret := js_show data.2 |})
     else ret None)
    (fun _ => ret None);
  match fromFile with
  | Some credentials => ret credentials
  | None =>
      available ← is1PasswordAvailable;
      opCreds ← (if (available : bool) then loadCredentialsFrom1Password else ret None);
      match opCreds with
      | Some credentials => ret credentials
      | None => throw CredentialsNotFound
      end
  end.

Definition findTokenPath : M (option string) :=
  projectPath ← gets (fun w => getProjectTokenPath (env w));
  inProject ← try_catch (fs_access projectPath;; ret (Some projectPath))
                        (fun _ => ret None);
  match inProject with
  | Some p => ret (Some p)
  | None =>
      globalPath ← gets (fun w => getGlobalTokenPath (env w));
      try_catch (fs_access globalPath;; ret (Some globalPath))
                (fun _ => ret None)
  end.

Definition loadToken : M TokenData :=
  tokenPath ← findTokenPath;
  match tokenPath with
  | None => throw TokenNotFound
  | Some p => content ← readFile p; parse_token p content
  end.

Definition saveToken (tokenData : TokenData) (global : bool) : M unit :=
  tokenPath ← gets (fun w => token_path global (env w));
  mkdir_dirname tokenPath;;
  writeFile tokenPath (FToken tokenData).

(** ** PKCE helpers *)

Definition generateCodeVerifier : M string :=
  bytes ← randomBytes 32; ret (base64url bytes).

Definition generateCodeChallenge (verifier : string) : string :=
  base64url (Sha256.sha256 (bytes_of_string verifier)).

Definition generateState : M string :=
  bytes ← randomBytes 16; ret (hex bytes).

(** The three values [performAuth] draws for one attempt. *)
Record PkceParameters := {
  verifier : string;
  challenge : string;
  state : string }.

Definition generatePkce : M PkceParameters :=
  codeVerifier ← generateCodeVerifier;
  let codeChallenge := generateCodeChallenge codeVerifier in
  st ← generateState;
  ret {| verifier := codeVerifier; challenge := codeChallenge; state := st |}.

(** ** Token refresh *)

Definition refresh_form (credentials : Credentials)
  (refreshToken : option string) : list (string * string) :=
  [ ("client_id", client_id credentials);
    ("client_secret", client_secret credentials);
    ("grant_type", "refresh_token");
    ("refresh_token", js_show refreshToken);
    ("scope", SCOPES) ].

(** The record [refreshAccessToken] builds from the refresh response at
    time [now]; [refreshToken] is the token the request was made with. *)
Definition refreshed_token (data : ProviderResponse)
  (refreshToken : option string) (now : Z) : TokenData :=
  {| access_token := r_access_token data;
     refresh_token := js_or (r_refresh_token data) refreshToken;
     expires_at := now + js_or_num (r_expires_in data) 3600 * 1000;
     scope := js_or (r_scope data) (Some SCOPES);
     token_type := js_or (r_token_type data) (Some "Bearer") |}.

Definition refreshAccessToken (credentials : Credentials)
  (refreshToken : option string) (tokenPath : string) : M TokenData :=
  data ← fetch_token (refresh_form credentials refreshToken);
  if truthy (r_error data) then
    throw (JsError ("Token refresh failed: " +:+
                    js_show (js_or (r_error_description data) (r_error data))))
  else
    now ← date_now;
    let tokenData := refreshed_token data refreshToken now in
    globalPath ← gets (fun w => getGlobalTokenPath (env w));
    let isGlobal := bool_decide (tokenPath = globalPath) in
    saveToken tokenData isGlobal;;
    ret tokenData.

(** ** Get a valid access token *)

Definition bufferMs : Z := 5 * 60 * 1000.

Definition getValidAccessToken : M (option string) :=
  credentials ← loadCredentials;
  tokenPath ← findTokenPath;
  match tokenPath with
  | None => throw TokenNotFound
  | Some p =>
      content ← readFile p;
      tokenData ← parse_token p content;
      now ← date_now;
      tokenData' ←
        (if expires_at tokenData <? now + bufferMs then
           console_error "Token expiring soon, refreshing...";;
           refreshAccessToken credentials (refresh_token tokenData) p
         else ret tokenData);
      ret (access_token tokenData')
  end.

(** ** Gitignore management *)

Definition includes (pattern text : string) : bool :=
  bool_decide (is_Some (String.index 0 pattern text)).

Definition ensureGitignore : M unit :=
  gitignorePath ← gets (fun w => path_join (cwd (env w)) ".gitignore");
  let pattern := ".claude/*.local.*" in
  try_catch
    (raw ← readFile gitignorePath;
     content ← file_text gitignorePath raw;
     if negb (includes pattern content) then
       writeFile gitignorePath
         (FText (content +:+ nl +:+ "# Microsoft skill tokens" +:+ nl
                 +:+ pattern +:+ nl));;
       console_error ("✓ Added " +:+ pattern +:+ " to .gitignore")
     else ret tt)
    (fun err =>
       match err with
       | ENOENT _ =>
           writeFile gitignorePath
             (FText ("# Microsoft skill tokens" +:+ nl +:+ pattern +:+ nl));;
           console_error ("✓ Created .gitignore with " +:+ pattern)
       | _ => ret tt
       end).

(** ** OAuth flow *)

(** Cross-platform browser open. *)
Definition openBrowser (url : string) (browser : option string) : M unit :=
  p ← gets (fun w => platform (env w));
  if String.eqb p "darwin" then
    spawn "open" (if truthy browser then ["-a"; js_show browser; url] else [url])
  else if String.eqb p "win32" then
    spawn "cmd" ["/c"; "start"; EmptyString; url]
  else
    spawn "xdg-open" [url].

(** [authUrl.toString()], without percent-encoding of the values. *)
Definition render_query (q : list (string * string)) : string :=
  String.concat "&" (map (fun kv => kv.1 +:+ "=" +:+ kv.2) q).

Definition authorization_url (credentials : Credentials)
  (st codeChallenge : string) : string :=
  MS_AUTH_URL +:+ "?" +:+
  render_query
    [ ("client_id", client_id credentials);
      ("response_type", "code");
      ("redirect_uri", CALLBACK_URL);
      ("response_mode", "query");
      ("scope", SCOPES);
      ("state", st);
      ("code_challenge", codeChallenge);
      ("code_challenge_method", "S256") ].

Definition new_listener : Listener :=
  {| listening := false; timer := None; promise := Pending; replies := [] |}.

Definition server_listen (l : Listener) : Listener :=
  {| listening := true; timer := timer l; promise := promise l;
     replies := replies l |}.

Definition set_timeout (deadline : Z) (l : Listener) : Listener :=
  {| listening := listening l; timer := Some deadline; promise := promise l;
     replies := replies l |}.

(** The [await]: the event loop runs until the promise settles, and the
    awaiting code resumes with its value or its error. *)
Definition await_promise (st : string) : M string :=
  fun w =>
    let '(evs, t, l) := event_loop st (inbox w) (clock w) (listener w) in
    let w' := set_listener l (set_clock t (set_inbox evs w)) in
    match promise l with
    | Resolved code => Returns code w'
    | Rejected e => Throws e w'
    | Pending => Hangs w'
    end.

(** [await new Promise<string>((resolve, reject) => { ... })] of
    [performAuth]: the executor creates the server, starts listening and arms
    the timer; the [listen] callback then opens the browser; the event loop
    is then awaited. *)
Definition awaitCallback (st authUrl : string) (browser : option string)
  : M string :=
  now ← date_now;
  modify (set_listener
            (set_timeout (now + CALLBACK_TIMEOUT_MS) (server_listen new_listener)));;
  try_catch (openBrowser authUrl browser)
            (fun _ => console_error "Could not open browser automatically.");;
  await_promise st.

Definition exchange_form (credentials : Credentials) (code codeVerifier : string)
  : list (string * string) :=
  [ ("client_id", client_id credentials);
    ("client_secret", client_secret credentials);
    ("code", code);
    ("redirect_uri", CALLBACK_URL);
    ("grant_type", "authorization_code");
    ("code_verifier", codeVerifier) ].

(** The record [performAuth] builds from the exchange response at time
    [now]. *)
Definition exchanged_token (data : ProviderResponse) (now : Z) : TokenData :=
  {| access_token := r_access_token data;
     refresh_token := r_refresh_token data;
     expires_at := now + js_or_num (r_expires_in data) 3600 * 1000;
     scope := r_scope data;
     token_type := r_token_type data |}.

Definition performAuth (global : bool) (browser : option string) : M unit :=
  credentials ← loadCredentials;
  tokenPath ← gets (fun w => token_path global (env w));
  mkdir_dirname tokenPath;;
  (if negb global then ensureGitignore else ret tt);;
  codeVerifier ← generateCodeVerifier;
  let codeChallenge := generateCodeChallenge codeVerifier in
  st ← generateState;
  let authUrl := authorization_url credentials st codeChallenge in
  console_error (nl +:+ "Opening browser for authentication...");;
  console_error ("If browser doesn't open, visit:" +:+ nl +:+ " " +:+ authUrl
                 +:+ " " +:+ nl);;
  code ← awaitCallback st authUrl browser;
  data ← fetch_token (exchange_form credentials code codeVerifier);
  if truthy (r_error data) then
    throw (JsError ("Token exchange failed: " +:+
                    js_show (js_or (r_error_description data) (r_error data))))
  else
    now ← date_now;
    let tokenData := exchanged_token data now in
    saveToken tokenData global;;
    console_error (nl +:+ "✓ Token saved to " +:+ tokenPath);;
    process_exit 0.

(** ** The [auth] command of [microsoft.ts] *)

(** [output(data)]: the JSON text of [data] on standard output. *)
Definition output (json : string) : M unit := console_log json.

(** [fail(message): never]. *)
Definition fail {A} (message : string) : M A :=
  console_error ("Error: " +:+ message);; process_exit 1.

(** [error instanceof Error ? error.message : String(error)]. *)
Definition error_message (e : exn) : string :=
  match e with
  | JsError m => m
  | FetchFailed => "fetch failed"
  | MalformedFile p => "Unexpected token in JSON: " +:+ p
  | ENOENT p => "ENOENT: no such file or directory, open " +:+ p
  end.

(** [args.indexOf(x)], [None] standing for [-1]. *)
Fixpoint indexOf (x : string) (args : list string) : option nat :=
  match args with
  | [] => None
  | a :: rest =>
      if String.eqb a x then Some O else S <$> indexOf x rest
  end.

Definition auth_success_json (tokenPath : string) : string :=
  "{ authenticated: true, tokenPath: " +:+ tokenPath +:+ " }".

(** [main] when [args[0]] is ["auth"]: the [case "auth"] block inside the
    [try], and the [catch] that calls [fail]. *)
Definition main_auth (args : list string) : M unit :=
  try_catch
    (let globalFlag := bool_decide (is_Some (indexOf "--global" args)) in
     let browser :=
       match indexOf "--browser" args with
       | Some i => args !! S i
       | None => None
       end in
     performAuth globalFlag browser;;
     tokenPath ← gets (fun w => token_path globalFlag (env w));
     output (auth_success_json tokenPath))
    (fun error => fail (error_message error)).

(** [checkAuth]. *)
Definition checkAuth : M (bool * option Z * option exn) :=
  try_catch
    (tokenData ← loadToken;
     now ← date_now;
     ret (bool_decide (now < expires_at tokenData),
          Some (expires_at tokenData), None))
    (fun error => ret (false, None, Some error)).

(** ** Stored records and sample worlds *)

(** A token record [t] is the one a read with no explicit scope finds: in
    the project file, or in the global file when there is no project file. *)
Definition stored_in (w : World) (global : bool) (t : TokenData) : Prop :=
  if global then
    fs w !! getProjectTokenPath (env w) = None
    /\ fs w !! getGlobalTokenPath (env w) = Some (FToken t)
  else fs w !! getProjectTokenPath (env w) = Some (FToken t).

Definition sample_env : Env :=
  {| cwd := "/proj"; homedir := "/home/u"; xdg_config_home := None;
     platform := "linux"; op_installed := false; op_vault := ∅;
     entropy := fun _ => 0 |}.

Definition sample_world (files : gmap string file) (now : Z)
  (answers : list reply) (events : list (N * Request)) : World :=
  {| env := sample_env; cursor := 0; fs := files; clock := now;
     endpoint := answers; sent := []; inbox := events;
     listener := new_listener; spawned := []; stderr := []; stdout := [] |}.

Definition sample_credentials_file : string :=
  "/home/u/.config/microsoft-skill/credentials.json".
Definition sample_project_file : string :=
  "/proj/.claude/microsoft-skill.local.json".
Definition sample_global_file : string :=
  "/home/u/.config/microsoft-skill/tokens.json".

Definition sample_credentials : file := FCreds (Some "id") (Some "secret").

Definition sample_token (access : string) (expires : Z) : TokenData :=
  {| access_token := Some access; refresh_token := Some "old-refresh";
     expires_at := expires; scope := Some SCOPES;
     token_type := Some "Bearer" |}.

(** A provider answer with the given optional fields and no error. *)
Definition sample_response (refresh : option string) (expires_in : option Z)
  (type : option string) : ProviderResponse :=
  {| r_error := None; r_error_description := None;
     r_access_token := Some "new-access"; r_refresh_token := refresh;
     r_expires_in := expires_in; r_scope := None; r_token_type := type |}.

(** The state the zero entropy of [sample_world] yields. *)
Definition sample_state : string := "00000000000000000000000000000000".

Definition callback_request (q : list (string * string)) : Request :=
  {| req_path := "/callback"; req_query := q |}.

(** ** Vocabulary for the callback wait *)

(** The request makes [handler] settle the promise: it carries a truthy
    [error], or a [state] other than the expected one, or a truthy [code]. *)
Definition terminal (st : string) (req : Request) : bool :=
  truthy (searchParams_get "error" (req_query req))
  || negb (bool_decide (searchParams_get "state" (req_query req) = Some st))
  || truthy (searchParams_get "code" (req_query req)).

(** The requests of [evs] that arrive strictly before [deadline], when the
    first delay starts at time [t]. *)
Fixpoint arriving_before (deadline t : Z) (evs : list (N * Request))
  : list Request :=
  match evs with
  | [] => []
  | (d, r) :: rest =>
      if deadline <=? t + Z.of_N d then []
      else r :: arriving_before deadline (t + Z.of_N d) rest
  end.

(** The listener between [setTimeout] and the first terminal event. *)
Definition waiting (deadline : Z) (l : Listener) : Prop :=
  listening l = true /\ timer l = Some deadline /\ promise l = Pending.

(** ** Vocabulary for the end of the flow *)

(** A computation is [calm] when it returns or throws, never exits or
    hangs, and leaves the environment and standard output as they were. *)
Definition calm {A} (m : M A) : Prop :=
  forall w,
    match m w with
    | Returns _ w' | Throws _ w' => env w' = env w /\ stdout w' = stdout w
    | Exits _ _ | Hangs _ => False
    end.

(** What a run of [performAuth] started in [w0] may end in: an exit with
    code 0 and a record at the requested path, or an exception; standard
    output and the environment untouched. *)
Definition auth_outcome (global : bool) (w0 : World) (o : outcome unit)
  : Prop :=
  match o with
  | Exits code w' =>
      code = 0 /\ env w' = env w0 /\ stdout w' = stdout w0
      /\ exists t, fs w' !! token_path global (env w0) = Some (FToken t)
  | Throws _ w' => env w' = env w0 /\ stdout w' = stdout w0
  | Returns _ _ | Hangs _ => False
  end.

(** ** Interactive setup *)

(** [askQuestion]: the prompt is written to standard error and the promise
    resolves with the next line of standard input, trimmed.  [answers] holds
    the trimmed lines still to come; when none is left nothing settles the
    promise.  The lines not yet read are returned with the answer. *)
Definition unanswered {A} : M A := fun w => Hangs w.

Definition askQuestion (question : string) (answers : list string)
  : M (string * list string) :=
  console_error question;;
  match answers with
  | [] => unanswered
  | answer :: rest => ret (answer, rest)
  end.

Definition credentialsFileExists : M bool :=
  try_catch
    (path ← gets (fun w => CREDENTIALS_PATH (env w));
     fs_access path;; ret true)
    (fun _ => ret false).

(** [answer.toLowerCase() === "y"]. *)
Definition is_yes (answer : string) : bool :=
  String.eqb answer "y" || String.eqb answer "Y".

Definition SETUP_BANNER : string :=
  "MICROSOFT SKILL - CREDENTIAL SETUP".

(** The first block of [performSetup]: with a credentials file in place the
    user is asked before it is overwritten.  [true] when setup goes on. *)
Definition confirm_overwrite (answers : list string)
  : M (bool * list string) :=
  present ← credentialsFileExists;
  if (present : bool) then
    path ← gets (fun w => CREDENTIALS_PATH (env w));
    console_error ("Credentials already configured at " +:+ path);;
    asked ← askQuestion "Overwrite existing credentials? (y/N): " answers;
    if negb (is_yes asked.1) then
      console_error "Setup cancelled.";; ret (false, asked.2)
    else ret (true, asked.2)
  else ret (true, answers).

(** The middle of [performSetup]: the menu, the choice and the credentials
    it leads to, from 1Password or typed in. *)
Definition choose_credentials (answers : list string) : M Credentials :=
  has1Password ← is1PasswordAvailable;
  console_error ("How would you like to provide Microsoft API credentials?"
                 +:+ nl);;
  (if (has1Password : bool) then
     console_error "  1. Load from 1Password (recommended)";;
     console_error "  2. Enter manually"
   else
     console_error "  1. Enter manually";;
     console_error "  (1Password CLI not detected)");;
  console_error EmptyString;;
  asked ← askQuestion
    ("Enter choice (1" +:+ (if (has1Password : bool) then " or 2"
                            else EmptyString) +:+ "): ") answers;
  if (has1Password : bool) && String.eqb asked.1 "1" then
    console_error (nl +:+ "Loading credentials from 1Password...");;
    opCreds ← loadCredentialsFrom1Password;
    match opCreds with
    | None =>
        console_error "Failed to load credentials from 1Password.";;
        console_error ("Ensure you have " +:+ OP_CLIENT_ID_REF +:+ " and "
                       +:+ OP_CLIENT_SECRET_REF);;
        throw (JsError "1Password credentials not found")
    | Some credentials =>
        console_error "✓ Loaded credentials from 1Password";;
        ret credentials
    end
  else
    console_error (nl +:+ "Enter your Microsoft API credentials:");;
    console_error ("(Register at https://entra.microsoft.com/)" +:+ nl);;
    askedId ← askQuestion "Client ID: " asked.2;
    askedSecret ← askQuestion "Client Secret: " askedId.2;
    if negb (truthy (Some askedId.1)) || negb (truthy (Some askedSecret.1))
    then throw (JsError "Both Client ID and Client Secret are required")
    else ret {| client_id := askedId.1; client_secret := askedSecret.1 |}.

Definition performSetup (answers : list string) : M unit :=
  console_error SETUP_BANNER;;
  confirmed ← confirm_overwrite answers;
  if negb confirmed.1 then ret tt
  else
    credentials ← choose_credentials confirmed.2;
    path ← gets (fun w => CREDENTIALS_PATH (env w));
    mkdir_dirname path;;
    writeFile path (FCreds (Some (client_id credentials))
                           (Some (client_secret credentials)));;
    console_error (nl +:+ "✓ Credentials saved to " +:+ path);;
    console_error (nl +:+ "Next step: Run 'pnpm tsx scripts/microsoft.ts auth'"
                   +:+ " to authenticate.").

(** ** Names of downloaded files ([microsoft.ts])

    [downloadMessage] builds the file name from the subject and the message
    id.  A JavaScript string is here the list of its UTF-16 code units: the
    regular expression has no [u] flag, so it works unit by unit, and
    [substring] counts units. *)

Definition units (s : string) : list N :=
  map N_of_ascii (list_ascii_of_string s).

(** A unit outside [[^a-z0-9]] under the [i] flag: an ASCII letter or
    digit. *)
Definition is_alnum (c : N) : bool :=
  ((48 <=? c) && (c <=? 57) || (65 <=? c) && (c <=? 90)
   || (97 <=? c) && (c <=? 122))%N.

Definition underscore : N := 95%N.

(** [(message.subject || "No Subject").replace(/[^a-z0-9]/gi, "_")
      .substring(0, 50)]. *)
Definition safeSubject (subject : option (list N)) : list N :=
  let chosen := match subject with
                | Some (c :: cs) => c :: cs
                | _ => units "No Subject"
                end in
  firstn 50 (map (fun c => if is_alnum c then c else underscore) chosen).

(** [`${safeSubject}_${messageId.substring(0, 8)}.eml`]. *)
Definition download_filename (subject : option (list N)) (messageId : list N)
  : list N :=
  (safeSubject subject ++ units "_" ++ firstn 8 messageId ++ units ".eml")%list.

(** ** Vocabulary for the credential resolver *)

(** The pair the credentials file gives, when it parses as a credentials
    object whose two fields are defined and not empty. *)
Definition file_pair (f : option file) : option Credentials :=
  match f with
  | Some (FCreds id secret) =>
      if truthy id && truthy secret then
        Some {| client_id := js_show id; client_secret := js_show secret |}
      else None
  | _ => None
  end.

(** The pair 1Password gives, when the CLI is installed and both
    references read as non-empty text. *)
Definition vault_pair (e : Env) : option Credentials :=
  if op_installed e
     && truthy (op_vault e !! OP_CLIENT_ID_REF)
     && truthy (op_vault e !! OP_CLIENT_SECRET_REF)
  then Some {| client_id := js_show (op_vault e !! OP_CLIENT_ID_REF);
               client_secret := js_show (op_vault e !! OP_CLIENT_SECRET_REF) |}
  else None.

(** ** Vocabulary for files left alone *)

(** The path [ensureGitignore] reads and writes. *)
Definition gitignore_path (e : Env) : string := path_join (cwd e) ".gitignore".

(** The pattern [ensureGitignore] looks for and appends. *)
Definition IGNORE_PATTERN : string := ".claude/*.local.*".

(** [w'] has the environment of [w] and, the ignore file apart, its
    files. *)
Definition same_files (w w' : World) : Prop :=
  env w' = env w
  /\ forall p, p <> gitignore_path (env w) -> fs w' !! p = fs w !! p.

(** A computation that returns or throws and, at most, rewrites the ignore
    file. *)
Definition gentle {A} (m : M A) : Prop :=
  forall w,
    match m w with
    | Returns _ w' | Throws _ w' => same_files w w'
    | Exits _ _ | Hangs _ => False
    end.

(** ** Reading the encodings back

    The inverses of [hex] and [base64url], as [Buffer.from(text, "hex")]
    and [Buffer.from(text, "base64url")] compute them on well-formed text.
    The program never decodes; they serve to show that the encodings lose
    nothing. *)

Fixpoint position (c : ascii) (alphabet : list ascii) : Z :=
  match alphabet with
  | [] => 0
  | x :: rest => if Ascii.eqb x c then 0 else 1 + position c rest
  end.

Definition nibble_of (c : ascii) : Z := position c hex_digits.
Definition sextet_of (c : ascii) : Z := position c base64url_alphabet.

Fixpoint unhex (cs : list ascii) : list Z :=
  match cs with
  | hi :: lo :: rest =>
      Z.lor (Z.shiftl (nibble_of hi) 4) (nibble_of lo) :: unhex rest
  | _ => []
  end.

Definition first_byte (c0 c1 : ascii) : Z :=
  Z.lor (Z.shiftl (sextet_of c0) 2) (Z.shiftr (sextet_of c1) 4).
Definition second_byte (c1 c2 : ascii) : Z :=
  Z.lor (Z.shiftl (Z.land (sextet_of c1) 15) 4) (Z.shiftr (sextet_of c2) 2).
Definition third_byte (c2 c3 : ascii) : Z :=
  Z.lor (Z.shiftl (Z.land (sextet_of c2) 3) 6) (sextet_of c3).

Fixpoint unbase64url (cs : list ascii) : list Z :=
  match cs with
  | c0 :: c1 :: c2 :: c3 :: rest =>
      first_byte c0 c1 :: second_byte c1 c2 :: third_byte c2 c3
      :: unbase64url rest
  | [c0; c1; c2] => [first_byte c0 c1; second_byte c1 c2]
  | [c0; c1] => [first_byte c0 c1]
  | _ => []
  end.

(** The 256 byte values, for checks by enumeration. *)
Definition all_bytes : list Z := map Z.of_nat (seq 0 256).

(** * Properties *)

(** ** Encodings *)

Section Encodings.

(** Induction on a list three elements at a time, as [base64url_chars]
    recurses. *)
Lemma triples_ind (A : Type) (P : list A -> Prop) :
  P [] -> (forall a, P [a]) -> (forall a b, P [a; b]) ->
  (forall a b c l, P l -> P (a :: b :: c :: l)) ->
  forall l, P l.
Proof.
  intros H0 H1 H2 H3.
  assert (Hall : forall l, P l /\ (forall a, P (a :: l))
                           /\ (forall a b, P (a :: b :: l))).
  { induction l as [|x l (IH0 & IH1 & IH2)]; repeat split; auto. }
  intros l. apply Hall.
Qed.

Lemma base64url_chars_length (bs : list Z) :
  length (base64url_chars bs) = ((4 * length bs + 2) / 3)%nat.
Proof.
  induction bs as [| a | a b | a b c l IH] using triples_ind; try reflexivity.
  cbn [base64url_chars length]. rewrite IH.
  replace (4 * S (S (S (length l))) + 2)%nat
    with ((4 * length l + 2) + 4 * 3)%nat by lia.
  rewrite Nat.div_add by lia. lia.
Qed.

Lemma sextet_char_in_alphabet (i : Z) : In (sextet_char i) base64url_alphabet.
Proof.
  unfold sextet_char.
  destruct (Nat.lt_ge_cases (Z.to_nat i) (length base64url_alphabet)) as [Hlt|Hge].
  - apply nth_In, Hlt.
  - rewrite nth_overflow by exact Hge. vm_compute. left. reflexivity.
Qed.

Lemma base64url_chars_alphabet (bs : list Z) :
  Forall (fun c => In c base64url_alphabet) (base64url_chars bs).
Proof.
  induction bs as [| a | a b | a b c l IH] using triples_ind;
    cbn [base64url_chars];
    repeat (apply List.Forall_cons; [apply sextet_char_in_alphabet|]);
    first [apply List.Forall_nil | exact IH].
Qed.

Lemma pad_char_not_in_alphabet : ~ In pad_char base64url_alphabet.
Proof.
  intros H. vm_compute in H.
  repeat (destruct H as [H|H]; [discriminate H|]). exact H.
Qed.

Lemma nibble_char_in_digits (i : Z) : In (nibble_char i) hex_digits.
Proof.
  unfold nibble_char.
  destruct (Nat.lt_ge_cases (Z.to_nat i) (length hex_digits)) as [Hlt|Hge].
  - apply nth_In, Hlt.
  - rewrite nth_overflow by exact Hge. vm_compute. left. reflexivity.
Qed.

Lemma hex_chars_length (bs : list Z) :
  length (hex_chars bs) = (2 * length bs)%nat.
Proof.
  unfold hex_chars. induction bs as [|b bs IH]; [reflexivity|].
  cbn [flat_map app length]. rewrite IH. lia.
Qed.

Lemma hex_chars_digits (bs : list Z) :
  Forall (fun c => In c hex_digits) (hex_chars bs).
Proof.
  unfold hex_chars. induction bs as [|b bs IH]; cbn [flat_map app];
    repeat (apply List.Forall_cons; [apply nibble_char_in_digits|]);
    first [apply List.Forall_nil | exact IH].
Qed.

Lemma string_of_list_ascii_length (cs : list ascii) :
  String.length (string_of_list_ascii cs) = length cs.
Proof. induction cs as [|c cs IH]; cbn; [reflexivity | now rewrite IH]. Qed.

Lemma sha256_length (msg : list Z) : length (Sha256.sha256 msg) = 32%nat.
Proof. reflexivity. Qed.

Lemma be_bytes_are_bytes (width : nat) (x : Z) :
  Forall is_byte (Sha256.be_bytes width x).
Proof.
  unfold Sha256.be_bytes. apply Forall_map, Forall_forall. intros i _.
  unfold is_byte. change 255 with (Z.ones 8). rewrite Z.land_ones by lia.
  apply Z.mod_pos_bound. reflexivity.
Qed.

Lemma randomBytes_spec (n : nat) (w : World) :
  exists bs, randomBytes n w = Returns bs (set_cursor (cursor w + n) w)
             /\ length bs = n /\ Forall is_byte bs.
Proof.
  eexists. split; [reflexivity|]. split.
  - now rewrite length_map, length_seq.
  - apply Forall_map, Forall_forall. intros i _.
    apply Z.mod_pos_bound. reflexivity.
Qed.

End Encodings.

(** ** PKCE generation *)

(** RFC 7636, appendix B: the challenge of the sample verifier. *)
Example rfc7636_appendix_b :
  generateCodeChallenge "dBjftJeZ4CVP-mB92K27uhbUJU1p1r_wW1gFWFOEjXk"
  = "E9Melhoa2OwvFrEMTJguCHaoeK1t8URWbuGJSstw-cM".
Proof. vm_compute. reflexivity. Qed.

(** FIPS 180-4 sample: the digest of the three bytes of [abc]. *)
Example sha256_abc :
  hex (Sha256.sha256 (bytes_of_string "abc"))
  = "ba7816bf8f01cfea414140de5dae2223b00361a396177a9cb410ff61f20015ad".
Proof. vm_compute. reflexivity. Qed.

(** RFC 4648, section 10, without the padding: [fo], [foo], [foob]. *)
Example base64url_samples :
  base64url (bytes_of_string "fo") = "Zm8"
  /\ base64url (bytes_of_string "foo") = "Zm9v"
  /\ base64url (bytes_of_string "foob") = "Zm9vYg"
  /\ base64url [251; 255] = "-_8".
Proof. vm_compute. auto. Qed.

Lemma no_padding (bs : list Z) :
  ~ In pad_char (list_ascii_of_string (base64url bs)).
Proof.
  unfold base64url. rewrite list_ascii_of_string_of_list_ascii. intros Hin.
  pose proof (base64url_chars_alphabet bs) as Hall.
  rewrite List.Forall_forall in Hall.
  exact (pad_char_not_in_alphabet (Hall _ Hin)).
Qed.

(** C1.  The PKCE values drawn by [performAuth]: the verifier is the
    unpadded URL-safe base64 text of 32 random bytes (43 characters), the
    state is the hex text of the next 16 random bytes (32 characters), and
    the challenge is the unpadded URL-safe base64 text of the SHA-256 digest
    of the characters of the verifier string, not of the 32 raw bytes. *)
Theorem pkce_parameters_encoding (w : World) :
  let raw32 := map (fun i => entropy (env w) i mod 256) (seq (cursor w) 32) in
  let raw16 := map (fun i => entropy (env w) i mod 256) (seq (cursor w + 32) 16) in
  exists p,
    generatePkce w = Returns p (set_cursor (cursor w + 32 + 16) w)
    /\ (length raw32 = 32%nat /\ Forall is_byte raw32
        /\ verifier p = base64url raw32)
    /\ (length raw16 = 16%nat /\ Forall is_byte raw16
        /\ state p = hex raw16)
    /\ challenge p = base64url (Sha256.sha256 (bytes_of_string (verifier p)))
    /\ String.length (verifier p) = 43%nat
    /\ String.length (challenge p) = 43%nat
    /\ String.length (state p) = 32%nat
    /\ ~ In pad_char (list_ascii_of_string (verifier p))
    /\ ~ In pad_char (list_ascii_of_string (challenge p)).
Proof.
  intros raw32 raw16.
  assert (Hbytes : forall k n,
            Forall is_byte (map (fun i => entropy (env w) i mod 256) (seq k n))).
  { intros k n. apply Forall_map, Forall_forall. intros i _.
    apply Z.mod_pos_bound. reflexivity. }
  exists {| verifier := base64url raw32;
            challenge := generateCodeChallenge (base64url raw32);
            state := hex raw16 |}.
  cbn [verifier challenge state].
  split; [reflexivity|].
  split; [split; [reflexivity | split; [apply Hbytes | reflexivity]]|].
  split; [split; [reflexivity | split; [apply Hbytes | reflexivity]]|].
  split; [reflexivity|].
  split.
  { unfold base64url.
    rewrite string_of_list_ascii_length, base64url_chars_length.
    reflexivity. }
  split.
  { unfold generateCodeChallenge, base64url.
    rewrite string_of_list_ascii_length, base64url_chars_length, sha256_length.
    reflexivity. }
  split.
  { unfold hex. rewrite string_of_list_ascii_length, hex_chars_length.
    reflexivity. }
  split; apply no_padding.
Qed.

(** The digest is taken over the 43 characters of the verifier text: for the
    all-zero random bytes it is not the digest of those 32 bytes. *)
Example challenge_hashes_the_encoded_verifier :
  let raw := repeat 0 32 in
  generateCodeChallenge (base64url raw)
    = "DwBzhbb51LfusnSGBa_hqYSgo7-j8BTQnip4TOnlzRo"
  /\ base64url (Sha256.sha256 raw)
    = "Zmh6rfhivXdsj8GLjp-OIAiXFIVu4jOzkCpZHQ1fKSU".
Proof. vm_compute. auto. Qed.

(** ** The token store and the credential resolver *)

(** Unfolding of the monad's operations, for symbolic execution. *)
Ltac unfold_monad :=
  unfold mbind, M_bind, mret, M_ret, bind, ret, throw, gets, modify,
    try_catch, process_exit in *.

Lemma list_ascii_of_string_app (a b : string) :
  list_ascii_of_string (a +:+ b)
  = (list_ascii_of_string a ++ list_ascii_of_string b)%list.
Proof.
  induction a as [|c a IH]; simpl; [reflexivity | f_equal; exact IH].
Qed.

(** The two token files have different names, so the two scopes never share
    a path. *)
Lemma token_paths_differ (e : Env) :
  getProjectTokenPath e <> getGlobalTokenPath e.
Proof.
  unfold getProjectTokenPath, getGlobalTokenPath, path_join,
    PROJECT_TOKEN_FILE, GLOBAL_TOKEN_FILE.
  intros H.
  apply (f_equal (fun s => rev (list_ascii_of_string s))) in H.
  rewrite !list_ascii_of_string_app, !rev_app_distr in H.
  cbn [list_ascii_of_string rev app] in H.
  discriminate H.
Qed.

(** The resolver only reads: it returns credentials or throws
    [CredentialsNotFound], in the world it started from. *)
Lemma loadCredentials_outcome (w : World) :
  (exists c, loadCredentials w = Returns c w)
  \/ loadCredentials w = Throws CredentialsNotFound w.
Proof.
  unfold loadCredentials, loadCredentialsFrom1Password, readFrom1Password,
    is1PasswordAvailable, readFile, parse_credentials.
  unfold_monad.
  destruct (fs w !! CREDENTIALS_PATH (env w)) as [[t|id secret|s]|]; cbn;
    repeat (case_match; cbn); simplify_eq; eauto.
Qed.

(** [findTokenPath] only reads, and prefers the project path. *)
Lemma findTokenPath_spec (w : World) :
  findTokenPath w =
  Returns (match fs w !! getProjectTokenPath (env w) with
           | Some _ => Some (getProjectTokenPath (env w))
           | None =>
               match fs w !! getGlobalTokenPath (env w) with
               | Some _ => Some (getGlobalTokenPath (env w))
               | None => None
               end
           end) w.
Proof.
  unfold findTokenPath, fs_access. unfold_monad.
  destruct (fs w !! getProjectTokenPath (env w)); [reflexivity|].
  destruct (fs w !! getGlobalTokenPath (env w)); reflexivity.
Qed.

(** C9.  A read with no explicit scope ([loadToken]) returns the project
    record whenever one exists, whatever the global file holds; it returns
    the global record when there is no project file; and it reports
    [TokenNotFound] when neither file exists.  The result is one stored
    record, never a mix of the two. *)
Theorem loadToken_scope_resolution (w : World) :
  (forall tp, fs w !! getProjectTokenPath (env w) = Some (FToken tp) ->
     findTokenPath w = Returns (Some (getProjectTokenPath (env w))) w
     /\ loadToken w = Returns tp w)
  /\ (forall tg, fs w !! getProjectTokenPath (env w) = None ->
        fs w !! getGlobalTokenPath (env w) = Some (FToken tg) ->
        findTokenPath w = Returns (Some (getGlobalTokenPath (env w))) w
        /\ loadToken w = Returns tg w)
  /\ (fs w !! getProjectTokenPath (env w) = None ->
      fs w !! getGlobalTokenPath (env w) = None ->
      findTokenPath w = Returns None w
      /\ loadToken w = Throws TokenNotFound w).
Proof.
  unfold loadToken. unfold_monad. rewrite findTokenPath_spec.
  unfold readFile, parse_token.
  repeat split; intros; repeat (simplify_option_eq; unfold_monad);
    try reflexivity.
Qed.

Lemma loadToken_scope_resolution_witness :
  let tp := sample_token "project-access" 0 in
  let tg := sample_token "global-access" 0 in
  let both := sample_world (<[sample_project_file := FToken tp]>
                              {[sample_global_file := FToken tg]}) 0 [] [] in
  let only_global := sample_world {[sample_global_file := FToken tg]} 0 [] [] in
  let neither := sample_world ∅ 0 [] [] in
  loadToken both = Returns tp both
  /\ loadToken only_global = Returns tg only_global
  /\ loadToken neither = Throws TokenNotFound neither.
Proof.
  intros tp tg both only_global neither.
  split; [|split].
  - apply (proj1 (loadToken_scope_resolution both)). reflexivity.
  - apply (proj1 (proj2 (loadToken_scope_resolution only_global)));
      reflexivity.
  - apply (proj2 (proj2 (loadToken_scope_resolution neither)));
      reflexivity.
Defined.

(** ** Lazy refresh: [getValidAccessToken] *)

Lemma saveToken_spec (t : TokenData) (global : bool) (w : World) :
  saveToken t global w
  = Returns tt (set_fs (<[token_path global (env w) := FToken t]> (fs w)) w).
Proof. reflexivity. Qed.

(** [tokenPath === getGlobalTokenPath()] recovers the flag of the scope the
    path belongs to. *)
Lemma same_scope (e : Env) (global : bool) :
  bool_decide (token_path global e = getGlobalTokenPath e) = global.
Proof.
  destruct global; cbn.
  - now apply bool_decide_eq_true.
  - apply bool_decide_eq_false, token_paths_differ.
Qed.

Lemma stored_in_found (w : World) (global : bool) (t : TokenData) :
  stored_in w global t ->
  findTokenPath w = Returns (Some (token_path global (env w))) w
  /\ fs w !! token_path global (env w) = Some (FToken t).
Proof.
  intros Hs. rewrite findTokenPath_spec. unfold stored_in in Hs.
  destruct global; cbn;
    [destruct Hs as [Hp Hg]; rewrite Hp, Hg | rewrite Hs]; auto.
Qed.

(** Once credentials are resolved and the record is read, what is left of
    [getValidAccessToken] is the comparison and, below the threshold, the
    refresh. *)
Lemma getValidAccessToken_after_read
  (w : World) (c : Credentials) (global : bool) (t : TokenData) :
  loadCredentials w = Returns c w ->
  stored_in w global t ->
  getValidAccessToken w =
  if expires_at t <? clock w + 5 * 60 * 1000 then
    match refreshAccessToken c (refresh_token t) (token_path global (env w))
            (set_stderr ("Token expiring soon, refreshing..." :: stderr w) w)
    with
    | Returns t' w' => Returns (access_token t') w'
    | Throws e w' => Throws e w'
    | Exits code w' => Exits code w'
    | Hangs w' => Hangs w'
    end
  else Returns (access_token t) w.
Proof.
  intros Hc Hs. destruct (stored_in_found _ _ _ Hs) as [Hfind Hread].
  unfold getValidAccessToken. unfold_monad. rewrite Hc, Hfind.
  unfold readFile. rewrite Hread. unfold parse_token, date_now.
  unfold_monad. cbn beta iota. change bufferMs with (5 * 60 * 1000).
  destruct (expires_at t <? clock w + 5 * 60 * 1000); reflexivity.
Qed.

(** C2.  With credentials resolved and a record stored, the token endpoint
    is called exactly when [expires_at < now + 5 minutes]: at or above the
    threshold nothing is sent or written and the stored access token is
    returned; below it exactly one request, a refresh, is sent, and when the
    provider answers without an error the new record is written to the path
    the old one was read from, leaving every other file as it was. *)
Theorem getValidAccessToken_refresh_threshold
  (w : World) (c : Credentials) (global : bool) (t : TokenData) :
  loadCredentials w = Returns c w ->
  stored_in w global t ->
  let o := getValidAccessToken w in
  (clock w + 5 * 60 * 1000 <= expires_at t ->
     o = Returns (access_token t) w)
  /\ (expires_at t < clock w + 5 * 60 * 1000 ->
      sent (final_world o) = refresh_form c (refresh_token t) :: sent w
      /\ forall d data rest,
           endpoint w = Reply d data :: rest ->
           truthy (r_error data) = false ->
           let t' := refreshed_token data (refresh_token t)
                       (clock w + Z.of_N d) in
           exists w',
             o = Returns (access_token t') w'
             /\ fs w' = <[token_path global (env w) := FToken t']> (fs w)).
Proof.
  intros Hc Hs o. subst o.
  rewrite (getValidAccessToken_after_read w c global t Hc Hs).
  split; intros Hcmp.
  - apply Z.ltb_ge in Hcmp. rewrite Hcmp. reflexivity.
  - apply Z.ltb_lt in Hcmp. rewrite Hcmp.
    unfold refreshAccessToken, fetch_token, elapse, saveToken, writeFile,
      mkdir_dirname, date_now.
    unfold_monad. cbn.
    split.
    + destruct (endpoint w) as [|[d data|d] rest]; cbn;
        [reflexivity| |reflexivity].
      destruct (truthy (r_error data)); reflexivity.
    + intros d data rest He Herr. rewrite He. cbn. rewrite Herr. cbn.
      rewrite same_scope.
      eexists. split; reflexivity.
Qed.

Lemma getValidAccessToken_refresh_threshold_witness :
  let now := 1700000000000 in
  let files (expires : Z) : gmap string file :=
    <[sample_credentials_file := sample_credentials]>
      {[sample_global_file := FToken (sample_token "stored-access" expires)]} in
  let w4 := sample_world (files (now + 4 * 60 * 1000)) now
              [Reply 120 (sample_response None (Some 3600) None)] [] in
  let w10 := sample_world (files (now + 10 * 60 * 1000)) now
               [Reply 120 (sample_response None (Some 3600) None)] [] in
  length (sent (final_world (getValidAccessToken w4))) = 1%nat
  /\ (exists w', getValidAccessToken w4 = Returns (Some "new-access") w'
                 /\ fs w' !! sample_project_file = None
                 /\ is_Some (fs w' !! sample_global_file))
  /\ getValidAccessToken w10 = Returns (Some "stored-access") w10.
Proof.
  intros now files w4 w10.
  pose (c := {| client_id := "id"; client_secret := "secret" |}).
  assert (H4 := getValidAccessToken_refresh_threshold w4 c true
                  (sample_token "stored-access" (now + 4 * 60 * 1000))
                  eq_refl (conj eq_refl eq_refl)).
  assert (H10 := getValidAccessToken_refresh_threshold w10 c true
                   (sample_token "stored-access" (now + 10 * 60 * 1000))
                   eq_refl (conj eq_refl eq_refl)).
  destruct H4 as [_ H4]. destruct H10 as [H10 _].
  destruct (H4 ltac:(vm_compute; reflexivity)) as [Hsent Hrefresh].
  split; [rewrite Hsent; reflexivity|].
  split.
  - destruct (Hrefresh _ _ _ eq_refl eq_refl) as (w' & Ho & Hfs).
    exists w'. split; [exact Ho|]. rewrite Hfs. split.
    + reflexivity.
    + eexists. reflexivity.
  - apply H10. vm_compute. discriminate.
Defined.

(** [getValidAccessToken] begins with [loadCredentials], whose failure ends
    it before the token store is looked at. *)
Lemma getValidAccessToken_without_credentials (w : World) :
  loadCredentials w = Throws CredentialsNotFound w ->
  getValidAccessToken w = Throws CredentialsNotFound w.
Proof.
  intros Hc. unfold getValidAccessToken. unfold_monad. now rewrite Hc.
Qed.

(** C4, as stated, fails: a token stored ten minutes away from expiry, and
    no credentials anywhere.  The stored access token is not returned; the
    call throws [CredentialsNotFound]. *)
Lemma fresh_token_without_credentials_throws :
  let now := 1700000000000 in
  let t := sample_token "stored-access" (now + 10 * 60 * 1000) in
  let w := sample_world {[sample_project_file := FToken t]} now [] [] in
  stored_in w false t
  /\ clock w + 5 * 60 * 1000 <= expires_at t
  /\ getValidAccessToken w = Throws CredentialsNotFound w
  /\ getValidAccessToken w <> Returns (access_token t) w.
Proof.
  intros now t w. split; [reflexivity|]. split; [vm_compute; discriminate|].
  assert (H : getValidAccessToken w = Throws CredentialsNotFound w)
    by (vm_compute; reflexivity).
  split; [exact H|]. rewrite H. discriminate.
Qed.

(** C4, amended.  Credentials are resolved first on every call.  When none
    resolve, the call throws [CredentialsNotFound] and nothing is read, sent
    or written, however fresh the stored token is.  When they resolve and the
    stored token is at or beyond the five-minute buffer, the stored access
    token is returned and the world is left as it was: no request, no
    write. *)
Theorem getValidAccessToken_resolves_credentials_first (w : World) :
  (loadCredentials w = Throws CredentialsNotFound w ->
   getValidAccessToken w = Throws CredentialsNotFound w)
  /\ (forall c global t,
        loadCredentials w = Returns c w ->
        stored_in w global t ->
        clock w + 5 * 60 * 1000 <= expires_at t ->
        getValidAccessToken w = Returns (access_token t) w).
Proof.
  split.
  - apply getValidAccessToken_without_credentials.
  - intros c global t Hc Hs Hfresh.
    rewrite (getValidAccessToken_after_read w c global t Hc Hs).
    apply Z.ltb_ge in Hfresh. now rewrite Hfresh.
Qed.

Lemma getValidAccessToken_resolves_credentials_first_witness :
  let now := 1700000000000 in
  let t := sample_token "stored-access" (now + 10 * 60 * 1000) in
  let without := sample_world {[sample_project_file := FToken t]} now [] [] in
  let with_file :=
    sample_world (<[sample_credentials_file := sample_credentials]>
                    {[sample_project_file := FToken t]}) now [] [] in
  getValidAccessToken without = Throws CredentialsNotFound without
  /\ getValidAccessToken with_file = Returns (Some "stored-access") with_file.
Proof.
  intros now t without with_file. split.
  - apply (proj1 (getValidAccessToken_resolves_credentials_first without)).
    reflexivity.
  - apply (proj2 (getValidAccessToken_resolves_credentials_first with_file)
             {| client_id := "id"; client_secret := "secret" |} false t).
    + reflexivity.
    + reflexivity.
    + vm_compute. discriminate.
Defined.

(** ** Records built from token-endpoint responses *)

(** Both paths compute the expiry the same way: the time the response is
    handled plus [expires_in] seconds, 3600 when the field is absent (or
    zero, which [||] treats alike). *)
Lemma expires_at_computed (data : ProviderResponse) (rt : option string)
  (now : Z) :
  expires_at (exchanged_token data now)
    = now + js_or_num (r_expires_in data) 3600 * 1000
  /\ expires_at (refreshed_token data rt now)
    = now + js_or_num (r_expires_in data) 3600 * 1000
  /\ (r_expires_in data = None -> js_or_num (r_expires_in data) 3600 = 3600)
  /\ (forall n, r_expires_in data = Some n -> n <> 0 ->
        js_or_num (r_expires_in data) 3600 = n).
Proof.
  repeat split; try reflexivity.
  - intros ->. reflexivity.
  - intros n -> Hn. unfold js_or_num, truthy_num.
    apply Z.eqb_neq in Hn. now rewrite Hn.
Qed.

(** Only the refresh path defaults the token type. *)
Lemma token_type_defaults (data : ProviderResponse) (rt : option string)
  (now : Z) :
  r_token_type data = None ->
  token_type (refreshed_token data rt now) = Some "Bearer"
  /\ token_type (exchanged_token data now) = None.
Proof. intros H. cbn. rewrite H. split; reflexivity. Qed.

(** What a successful refresh returns and writes. *)
Lemma refreshAccessToken_success (w : World) (c : Credentials)
  (rt : option string) (global : bool) (d : N) (data : ProviderResponse)
  (rest : list reply) :
  endpoint w = Reply d data :: rest ->
  truthy (r_error data) = false ->
  exists w',
    refreshAccessToken c rt (token_path global (env w)) w
    = Returns (refreshed_token data rt (clock w + Z.of_N d)) w'
    /\ fs w' = <[token_path global (env w) :=
                   FToken (refreshed_token data rt (clock w + Z.of_N d))]>
                 (fs w).
Proof.
  intros He Herr.
  unfold refreshAccessToken, fetch_token, elapse, saveToken, writeFile,
    mkdir_dirname, date_now.
  unfold_monad. cbn. rewrite He. cbn. rewrite Herr. cbn.
  rewrite same_scope. eexists. split; reflexivity.
Qed.

(** C7, at the failing input: an authorization-code exchange whose response
    has no [token_type].  [performAuth] persists a record whose [token_type]
    is undefined, where [refreshAccessToken] would have written [Bearer];
    the expiry is the time of capture plus 3600 seconds in both. *)
Theorem exchange_leaves_token_type_undefined :
  let data := sample_response (Some "refresh-1") None None in
  let callback :=
    callback_request [("code", "ABC"); ("state", sample_state)] in
  let w := sample_world {[sample_credentials_file := sample_credentials]}
             1700000000000 [Reply 80 data] [(10%N, callback)] in
  exists t w',
    performAuth false None w = Exits 0 w'
    /\ fs w' !! sample_project_file = Some (FToken t)
    /\ token_type t = None
    /\ expires_at t = clock w' + 3600 * 1000
    /\ token_type (refreshed_token data (Some "old-refresh") (clock w'))
       = Some "Bearer".
Proof.
  intros data callback w.
  eexists. eexists.
  split; [vm_compute; reflexivity|].
  split; [vm_compute; reflexivity|].
  repeat split.
Qed.

(** C8, as stated, fails: the response includes a [refresh_token], the
    empty string, and the persisted record keeps the prior one. *)
Lemma empty_refresh_token_is_not_stored :
  let now := 1700000000000 in
  let data := sample_response (Some EmptyString) (Some 3600) None in
  let w := sample_world
             (<[sample_credentials_file := sample_credentials]>
                {[sample_project_file :=
                    FToken (sample_token "stored-access" now)]})
             now [Reply 80 data] [] in
  r_refresh_token data = Some EmptyString
  /\ exists t w',
       getValidAccessToken w = Returns (Some "new-access") w'
       /\ fs w' !! sample_project_file = Some (FToken t)
       /\ refresh_token t = Some "old-refresh"
       /\ refresh_token t <> r_refresh_token data.
Proof.
  intros now data w. split; [reflexivity|].
  eexists. eexists.
  split; [vm_compute; reflexivity|].
  split; [vm_compute; reflexivity|].
  split; [reflexivity | discriminate].
Qed.

(** C8, amended.  After a successful refresh the persisted record keeps the
    prior refresh token when the response has none or an empty one, and
    holds the response's refresh token when that is a non-empty string. *)
Theorem refresh_token_retention (w : World) (c : Credentials)
  (prior : option string) (global : bool) (d : N) (data : ProviderResponse)
  (rest : list reply) :
  endpoint w = Reply d data :: rest ->
  truthy (r_error data) = false ->
  exists t w',
    refreshAccessToken c prior (token_path global (env w)) w = Returns t w'
    /\ fs w' !! token_path global (env w) = Some (FToken t)
    /\ (r_refresh_token data = None -> refresh_token t = prior)
    /\ (r_refresh_token data = Some EmptyString -> refresh_token t = prior)
    /\ (forall s, r_refresh_token data = Some s -> s <> EmptyString ->
          refresh_token t = Some s).
Proof.
  intros He Herr.
  destruct (refreshAccessToken_success w c prior global d data rest He Herr)
    as (w' & Hrun & Hfs).
  eexists. exists w'. split; [exact Hrun|].
  split; [rewrite Hfs; apply lookup_insert_eq|].
  cbn [refresh_token refreshed_token]. unfold js_or.
  split; [intros ->; reflexivity|].
  split; [intros ->; reflexivity|].
  intros s -> Hs. cbn [truthy].
  destruct (String.eqb_spec s EmptyString) as [->|_]; [contradiction|].
  reflexivity.
Qed.

Lemma refresh_token_retention_witness :
  let now := 1700000000000 in
  let files : gmap string file :=
    {[sample_project_file := FToken (sample_token "stored-access" now)]} in
  let c := {| client_id := "id"; client_secret := "secret" |} in
  let rotated := sample_world files now
                   [Reply 80 (sample_response (Some "rotated") None None)] [] in
  let kept := sample_world files now
                [Reply 80 (sample_response None None None)] [] in
  (exists t w',
     refreshAccessToken c (Some "old-refresh") sample_project_file rotated
       = Returns t w'
     /\ refresh_token t = Some "rotated")
  /\ (exists t w',
        refreshAccessToken c (Some "old-refresh") sample_project_file kept
          = Returns t w'
        /\ refresh_token t = Some "old-refresh").
Proof.
  intros now files c rotated kept. split.
  - destruct (refresh_token_retention rotated c (Some "old-refresh") false
                80%N (sample_response (Some "rotated") None None) []
                eq_refl eq_refl)
      as (t & w' & Hrun & _ & _ & _ & Hnew).
    exists t, w'. split; [exact Hrun|].
    apply Hnew; [reflexivity | discriminate].
  - destruct (refresh_token_retention kept c (Some "old-refresh") false
                80%N (sample_response None None None) []
                eq_refl eq_refl)
      as (t & w' & Hrun & _ & Hkeep & _).
    exists t, w'. split; [exact Hrun|].
    apply Hkeep. reflexivity.
Defined.

(** ** The callback listener *)

Lemma truthy_nonempty (s : string) : s <> EmptyString -> truthy (Some s) = true.
Proof.
  intros Hs. cbn. destruct (String.eqb_spec s EmptyString); [contradiction|].
  reflexivity.
Qed.

(** C3, as stated, fails on parameters that are present but empty: an empty
    [error] next to a code and the expected state does not deny, the code is
    returned with a 200; and an empty [code] with the expected state yields
    neither a code nor a failure, but a 404 and a promise still pending. *)
Lemma empty_error_parameter_is_ignored :
  let l0 := set_timeout 300000 (server_listen new_listener) in
  let with_error :=
    callback_request
      [("error", EmptyString); ("code", "ABC"); ("state", sample_state)] in
  let with_code :=
    callback_request [("code", EmptyString); ("state", sample_state)] in
  (searchParams_get "error" (req_query with_error) = Some EmptyString
   /\ promise (handler sample_state with_error l0) = Resolved "ABC"
   /\ map status (replies (handler sample_state with_error l0)) = [200])
  /\ (searchParams_get "code" (req_query with_code) = Some EmptyString
      /\ promise (handler sample_state with_code l0) = Pending
      /\ map status (replies (handler sample_state with_code l0)) = [404]).
Proof. vm_compute. repeat split. Qed.

(** C3, amended.  On a pending promise the handler decides by [error], then
    [state], then [code], each parameter counting only when it is present
    and not empty.  A non-empty [error] rejects with the provider's message
    and answers 400, whatever [code] and [state] are.  Otherwise a [state]
    that is absent or differs from the expected one rejects with
    [StateMismatch] and answers 400, whatever [code] is.  Otherwise a
    non-empty [code] resolves with that code and answers 200.  In the three
    cases the server is closed. *)
Theorem handler_precedence (st : string) (req : Request) (l : Listener) :
  promise l = Pending ->
  let error := searchParams_get "error" (req_query req) in
  let returnedState := searchParams_get "state" (req_query req) in
  let returnedCode := searchParams_get "code" (req_query req) in
  let l' := handler st req l in
  (forall e, error = Some e -> e <> EmptyString ->
     promise l' = Rejected (ProviderDenied e)
     /\ listening l' = false
     /\ replies l' = {| status := 400; content_type := None;
                        body := "Error: " +:+ e |} :: replies l)
  /\ (truthy error = false -> returnedState <> Some st ->
      promise l' = Rejected StateMismatch
      /\ listening l' = false
      /\ replies l' = {| status := 400; content_type := None;
                         body := "Error: State mismatch" |} :: replies l)
  /\ (truthy error = false -> returnedState = Some st ->
      forall c, returnedCode = Some c -> c <> EmptyString ->
      promise l' = Resolved c
      /\ listening l' = false
      /\ replies l' =
         {| status := 200; content_type := Some "text/html";
            body := "<h1>Success!</h1><p>You can close this window.</p>" |}
         :: replies l).
Proof.
  intros Hp error returnedState returnedCode l'.
  subst l' error returnedState returnedCode. unfold handler.
  split; [|split].
  - intros e He Hne. rewrite He, (truthy_nonempty e Hne).
    unfold settle. cbn. rewrite Hp. cbn. auto.
  - intros He Hst. rewrite He.
    rewrite (bool_decide_eq_false_2 _ Hst). cbn [negb].
    unfold settle. cbn. rewrite Hp. cbn. auto.
  - intros He Hst c Hc Hne. rewrite He.
    rewrite (bool_decide_eq_true_2 _ Hst). cbn [negb].
    rewrite Hc, (truthy_nonempty c Hne).
    unfold settle. cbn. rewrite Hp. cbn. auto.
Qed.

Lemma handler_precedence_witness :
  let l0 := set_timeout 300000 (server_listen new_listener) in
  let denied :=
    callback_request
      [("error", "access_denied"); ("code", "ABC"); ("state", sample_state)] in
  let forged := callback_request [("code", "ABC"); ("state", "forged")] in
  let granted := callback_request [("code", "ABC"); ("state", sample_state)] in
  promise (handler sample_state denied l0)
    = Rejected (ProviderDenied "access_denied")
  /\ promise (handler sample_state forged l0) = Rejected StateMismatch
  /\ promise (handler sample_state granted l0) = Resolved "ABC".
Proof.
  intros l0 denied forged granted.
  destruct (handler_precedence sample_state denied l0 eq_refl) as (Hd & _ & _).
  destruct (handler_precedence sample_state forged l0 eq_refl) as (_ & Hf & _).
  destruct (handler_precedence sample_state granted l0 eq_refl) as (_ & _ & Hg).
  split; [|split].
  - apply (Hd "access_denied"); [reflexivity | discriminate].
  - apply Hf; [reflexivity | discriminate].
  - apply (Hg eq_refl eq_refl "ABC"); [reflexivity | discriminate].
Defined.

Lemma terminal_false (st : string) (req : Request) :
  terminal st req = false <->
  truthy (searchParams_get "error" (req_query req)) = false
  /\ searchParams_get "state" (req_query req) = Some st
  /\ truthy (searchParams_get "code" (req_query req)) = false.
Proof.
  unfold terminal. rewrite !orb_false_iff, negb_false_iff, bool_decide_eq_true.
  tauto.
Qed.

Lemma handler_step (st : string) (deadline : Z) (r : Request) (l : Listener) :
  waiting deadline l ->
  if terminal st r then
    promise (handler st r l) <> Pending
    /\ listening (handler st r l) = false
    /\ timer (handler st r l) = Some deadline
  else waiting deadline (handler st r l).
Proof.
  intros (Hl & Ht & Hp). unfold terminal, handler, waiting, settle.
  destruct (truthy (searchParams_get "error" (req_query r))); cbn;
    [rewrite Hp; cbn; auto|].
  destruct (bool_decide (searchParams_get "state" (req_query r) = Some st));
    cbn; [|rewrite Hp; cbn; auto].
  destruct (truthy (searchParams_get "code" (req_query r))); cbn;
    [rewrite Hp; cbn; auto|].
  auto.
Qed.

Lemma on_timeout_waiting (deadline : Z) (l : Listener) :
  waiting deadline l ->
  promise (on_timeout l) = Rejected AuthTimeout
  /\ listening (on_timeout l) = false
  /\ timer (on_timeout l) = None.
Proof.
  intros (Hl & Ht & Hp). unfold on_timeout, settle. cbn. rewrite Hp. cbn. auto.
Qed.

Lemma event_loop_spec (st : string) (deadline : Z) :
  forall (evs : list (N * Request)) (t : Z) (l : Listener),
    waiting deadline l ->
    let '(_, t', l') := event_loop st evs t l in
    listening l' = false
    /\ ((promise l' = Rejected AuthTimeout /\ timer l' = None
         /\ deadline <= t'
         /\ List.Forall (fun r => terminal st r = false)
              (arriving_before deadline t evs))
        \/ (promise l' <> Pending /\ timer l' = Some deadline
            /\ List.Exists (fun r => terminal st r = true)
                 (arriving_before deadline t evs))).
Proof.
  induction evs as [|[d r] rest IH]; intros t l Hw;
    pose proof Hw as (Hl & Ht & Hp); cbn [event_loop arriving_before];
    rewrite Hp, Ht.
  - destruct (on_timeout_waiting deadline l Hw) as (H1 & H2 & H3).
    split; [exact H2|]. left. repeat split; auto. lia.
  - destruct (Z.leb_spec deadline (t + Z.of_N d)) as [Hdue|Hearly].
    + destruct (on_timeout_waiting deadline l Hw) as (H1 & H2 & H3).
      split; [exact H2|]. left. repeat split; auto. lia.
    + unfold dispatch. rewrite Hl.
      pose proof (handler_step st deadline r l Hw) as Hstep.
      destruct (terminal st r) eqn:Hterm.
      * destruct Hstep as (Hsettled & Hclosed & Htimer).
        destruct rest as [|ev rest']; cbn [event_loop];
          destruct (promise (handler st r l)) eqn:Hpr; try contradiction;
          (split; [exact Hclosed|]); right; rewrite ?Hpr;
          (split; [discriminate|]); (split; [exact Htimer|]);
          apply List.Exists_cons_hd; exact Hterm.
      * specialize (IH (t + Z.of_N d) (handler st r l) Hstep).
        destruct (event_loop st rest (t + Z.of_N d) (handler st r l))
          as [[evs' t'] l'].
        destruct IH as (Hclosed & [(Hto & Htm & Hle & Hall)|(Hs & Htm & Hex)]).
        -- split; [exact Hclosed|]. left. repeat split; auto.
        -- split; [exact Hclosed|]. right. repeat split; auto.
Qed.

(** C6, as stated, fails: a request for another path, such as the icon a
    browser asks for by itself, carries no [state]; it is answered 400, the
    server is closed and the wait ends with [StateMismatch].  The callback
    that follows is never served. *)
Lemma other_path_terminates_the_wait :
  let l0 := set_timeout 300000 (server_listen new_listener) in
  let favicon := {| req_path := "/favicon.ico"; req_query := [] |} in
  let granted := callback_request [("code", "ABC"); ("state", sample_state)] in
  let w := sample_world ∅ 1000 [] [(10%N, favicon); (20%N, granted)] in
  req_path favicon <> "/callback"
  /\ promise (handler sample_state favicon l0) = Rejected StateMismatch
  /\ listening (handler sample_state favicon l0) = false
  /\ map status (replies (handler sample_state favicon l0)) = [400]
  /\ exists w', awaitCallback sample_state "url" None w = Throws StateMismatch w'
                /\ map fst (inbox w') = [20%N].
Proof.
  intros l0 favicon granted w.
  split; [discriminate|].
  split; [reflexivity|]. split; [reflexivity|]. split; [reflexivity|].
  eexists. split; vm_compute; reflexivity.
Qed.

(** C6, amended.  The handler does not look at the path: a request is
    handled the same way on every path.  It is answered 404, leaving the
    server, the timer and the promise as they were, exactly when it has no
    non-empty [error], its [state] is the expected one and it has no
    non-empty [code]; any other request, on any path, settles a pending
    promise, closes the server and is answered 200 or 400. *)
Theorem handler_ignores_path (st path path' : string)
  (q : list (string * string)) (l : Listener) :
  let req := {| req_path := path; req_query := q |} in
  handler st req l = handler st {| req_path := path'; req_query := q |} l
  /\ (truthy (searchParams_get "error" q) = false ->
      searchParams_get "state" q = Some st ->
      truthy (searchParams_get "code" q) = false ->
      handler st req l
      = respond {| status := 404; content_type := None;
                   body := EmptyString |} l)
  /\ (terminal st req = true -> promise l = Pending ->
      promise (handler st req l) <> Pending
      /\ listening (handler st req l) = false
      /\ exists r, replies (handler st req l) = r :: replies l
                   /\ status r <> 404).
Proof.
  intros req. split; [reflexivity|]. split.
  - intros He Hs Hc. unfold handler. cbn [req_query req].
    rewrite He, Hc, (bool_decide_eq_true_2 _ Hs). reflexivity.
  - unfold terminal, handler, settle. cbn [req_query req]. intros Ht Hp.
    destruct (truthy (searchParams_get "error" q)); cbn;
      [rewrite Hp; cbn; repeat split; try discriminate;
       eexists; split; [reflexivity | discriminate]|].
    destruct (bool_decide (searchParams_get "state" q = Some st)); cbn;
      [|rewrite Hp; cbn; repeat split; try discriminate;
        eexists; split; [reflexivity | discriminate]].
    cbn in Ht. rewrite Ht. cbn.
    rewrite Hp; cbn; repeat split; try discriminate.
    eexists; split; [reflexivity | discriminate].
Qed.

Lemma handler_ignores_path_witness :
  let l0 := set_timeout 300000 (server_listen new_listener) in
  let probe := {| req_path := "/health"; req_query := [("state", sample_state)] |} in
  let stray := {| req_path := "/favicon.ico"; req_query := [] |} in
  (map status (replies (handler sample_state probe l0)) = [404]
   /\ promise (handler sample_state probe l0) = Pending
   /\ listening (handler sample_state probe l0) = true)
  /\ (promise (handler sample_state stray l0) <> Pending
      /\ listening (handler sample_state stray l0) = false).
Proof.
  intros l0 probe stray. subst probe stray.
  destruct (handler_ignores_path sample_state "/health" "/callback"
              [("state", sample_state)] l0) as (_ & H404 & _).
  destruct (handler_ignores_path sample_state "/favicon.ico" "/callback"
              [] l0) as (_ & _ & Hterm).
  split.
  - rewrite (H404 eq_refl eq_refl eq_refl). repeat split.
  - destruct (Hterm eq_refl eq_refl) as (Hp & Hl & _). split; assumption.
Defined.

(** ** The wait as a race *)

(** Up to the [await], [awaitCallback] arms the listener and launches the
    browser; only the listener and the list of spawned processes change. *)
Lemma awaitCallback_setup (st url : string) (browser : option string)
  (w : World) :
  exists ps,
    awaitCallback st url browser w
    = await_promise st
        (set_spawned ps
           (set_listener
              (set_timeout (clock w + CALLBACK_TIMEOUT_MS)
                 (server_listen new_listener)) w)).
Proof.
  unfold awaitCallback, openBrowser, spawn, date_now, console_error.
  unfold_monad. cbn.
  destruct (String.eqb (platform (env w)) "darwin");
    [|destruct (String.eqb (platform (env w)) "win32")];
    eexists; reflexivity.
Qed.

Lemma armed_listener_waiting (deadline : Z) :
  waiting deadline (set_timeout deadline (server_listen new_listener)).
Proof. repeat split. Qed.

Lemma Forall_Exists_terminal (st : string) (rs : list Request) :
  List.Forall (fun r => terminal st r = false) rs ->
  List.Exists (fun r => terminal st r = true) rs -> False.
Proof.
  intros Hall Hex. apply List.Exists_exists in Hex as (r & Hin & Ht).
  rewrite List.Forall_forall in Hall. specialize (Hall r Hin). congruence.
Qed.

Lemma on_timeout_settled (l : Listener) :
  promise l <> Pending ->
  promise (on_timeout l) = promise l /\ listening (on_timeout l) = false.
Proof.
  intros Hp. unfold on_timeout, settle. cbn.
  destruct (promise l) eqn:E; [congruence| |]; cbn; auto.
Qed.


(** C5, as stated, fails: after a callback that succeeds the timer is still
    armed, in the listener [awaitCallback] leaves behind and at the moment
    [performAuth] ends the process.  Nothing in the source clears it. *)
Lemma timer_still_armed_after_success :
  let granted := callback_request [("code", "ABC"); ("state", sample_state)] in
  let w := sample_world {[sample_credentials_file := sample_credentials]}
             1000 [Reply 80 (sample_response None None None)]
             [(10%N, granted)] in
  (exists w', awaitCallback sample_state "url" None w = Returns "ABC" w'
              /\ timer (listener w') = Some (1000 + 300000)
              /\ clock w' < 1000 + 300000)
  /\ (exists w', performAuth false None w = Exits 0 w'
                 /\ timer (listener w') = Some (1000 + 300000)).
Proof.
  intros granted w. split; eexists; (split; [vm_compute; reflexivity|]).
  - split; vm_compute; reflexivity.
  - vm_compute; reflexivity.
Qed.

(** C5, amended.  The wait ends in exactly one way, with a code or with an
    error, never both and never neither, and the server is closed however it
    ends.  When no request that settles the promise arrives before the
    five-minute deadline, the timer fires, the server is closed and the wait
    fails with [Timeout].  The timer is not cleared when a request wins the
    race: after a success it is still armed at that deadline; when it fires
    later it closes the server again and its rejection is ignored, so the
    outcome stands. *)
Theorem awaitCallback_race (st url : string) (browser : option string)
  (w : World) :
  let deadline := clock w + 5 * 60 * 1000 in
  let o := awaitCallback st url browser w in
  let l' := listener (final_world o) in
  ((exists code w', o = Returns code w' /\ promise l' = Resolved code)
   \/ (exists e w', o = Throws e w' /\ promise l' = Rejected e))
  /\ listening l' = false
  /\ (List.Forall (fun r => terminal st r = false)
        (arriving_before deadline (clock w) (inbox w)) ->
      exists w', o = Throws AuthTimeout w'
                 /\ deadline <= clock w' /\ timer l' = None)
  /\ (forall code w', o = Returns code w' -> timer l' = Some deadline)
  /\ (promise (on_timeout l') = promise l'
      /\ listening (on_timeout l') = false).
Proof.
  intros deadline o l'. subst o l'.
  destruct (awaitCallback_setup st url browser w) as (ps & ->).
  change CALLBACK_TIMEOUT_MS with (5 * 60 * 1000). fold deadline.
  unfold await_promise. cbn [inbox clock listener set_spawned set_listener].
  pose proof (event_loop_spec st deadline (inbox w) (clock w) _
                (armed_listener_waiting deadline)) as Hloop.
  destruct (event_loop st (inbox w) (clock w)
              (set_timeout deadline (server_listen new_listener)))
    as [[evs t'] l'].
  destruct Hloop as (Hclosed & Hrace).
  assert (Hsettled : promise l' <> Pending).
  { destruct Hrace as [(Hto & _)|(Hs & _)]; [rewrite Hto; discriminate|exact Hs]. }
  destruct (promise l') as [|code|e] eqn:Hp; [contradiction| |]; cbn.
  - split; [left; eauto|]. split; [exact Hclosed|].
    split.
    { intros Hall. destruct Hrace as [(Hto & _)|(_ & _ & Hex)];
        [discriminate | destruct (Forall_Exists_terminal _ _ Hall Hex)]. }
    split.
    { intros code' w' _. destruct Hrace as [(Hto & _)|(_ & Htm & _)];
        [discriminate | exact Htm]. }
    apply on_timeout_settled. rewrite Hp. discriminate.
  - split; [right; eauto|]. split; [exact Hclosed|].
    split.
    { intros Hall. destruct Hrace as [(Hto & Htm & Hle & _)|(_ & _ & Hex)];
        [|destruct (Forall_Exists_terminal _ _ Hall Hex)].
      injection Hto as ->. eexists. repeat split; eauto. }
    split; [intros code' w' Heq; discriminate Heq|].
    apply on_timeout_settled. rewrite Hp. discriminate.
Qed.

Lemma awaitCallback_race_witness :
  let probe := callback_request [("state", sample_state)] in
  let silent := sample_world ∅ 1000 [] [(10%N, probe)] in
  exists w', awaitCallback sample_state "url" None silent = Throws AuthTimeout w'
             /\ 1000 + 5 * 60 * 1000 <= clock w'
             /\ map status (replies (listener w')) = [404]
             /\ listening (listener w') = false.
Proof.
  intros probe silent.
  destruct (awaitCallback_race sample_state "url" None silent)
    as (_ & Hclosed & Htimeout & _).
  destruct Htimeout as (w' & Ho & Hclock & _).
  { vm_compute. repeat constructor. }
  exists w'. split; [exact Ho|]. split; [exact Hclock|].
  rewrite Ho in Hclosed. cbn [final_world] in Hclosed.
  split; [|exact Hclosed].
  assert (Hw : final_world (awaitCallback sample_state "url" None silent) = w')
    by (rewrite Ho; reflexivity).
  rewrite <- Hw. vm_compute. reflexivity.
Defined.

(** ** The end of [performAuth] *)

Section Calm.

Context {A B : Type}.

Lemma calm_ret (a : A) : calm (ret a).
Proof. intros w. cbn. auto. Qed.

Lemma calm_throw (e : exn) : calm (throw (A:=A) e).
Proof. intros w. cbn. auto. Qed.

Lemma calm_gets (f : World -> A) : calm (gets f).
Proof. intros w. cbn. auto. Qed.

Lemma calm_bind (m : M A) (k : A -> M B) :
  calm m -> (forall a, calm (k a)) -> calm (m ≫= k).
Proof.
  intros Hm Hk w. unfold_monad. specialize (Hm w).
  destruct (m w) as [a w1|e w1|c w1|w1]; try exact Hm.
  destruct Hm as [He Hs]. specialize (Hk a w1).
  destruct (k a w1); try exact Hk; destruct Hk; split; congruence.
Qed.

Lemma calm_try_catch (m : M A) (h : exn -> M A) :
  calm m -> (forall e, calm (h e)) -> calm (try_catch m h).
Proof.
  intros Hm Hh w. unfold try_catch. specialize (Hm w).
  destruct (m w) as [a w1|e w1|c w1|w1]; try exact Hm.
  destruct Hm as [He Hs]. specialize (Hh e w1).
  destruct (h e w1); try exact Hh; destruct Hh; split; congruence.
Qed.

End Calm.

Lemma calm_modify (f : World -> World) :
  (forall w, env (f w) = env w /\ stdout (f w) = stdout w) ->
  calm (modify f).
Proof. intros Hf w. cbn. apply Hf. Qed.

Lemma calm_console_error (line : string) : calm (console_error line).
Proof. apply calm_modify. intros w. split; reflexivity. Qed.

Lemma calm_readFile (p : string) : calm (readFile p).
Proof. intros w. unfold readFile. destruct (fs w !! p); cbn; auto. Qed.

Lemma calm_writeFile (p : string) (f : file) : calm (writeFile p f).
Proof. apply calm_modify. intros w. split; reflexivity. Qed.

Lemma calm_file_text (p : string) (f : file) : calm (file_text p f).
Proof. destruct f; intros w; cbn; auto. Qed.

Lemma calm_randomBytes (n : nat) : calm (randomBytes n).
Proof. intros w. cbn. auto. Qed.

Lemma calm_fetch_token (form : list (string * string)) :
  calm (fetch_token form).
Proof.
  intros w. unfold fetch_token, elapse. unfold_monad.
  destruct (endpoint w) as [|[d data|d] rest]; cbn; auto.
Qed.

Lemma calm_loadCredentials : calm loadCredentials.
Proof.
  intros w. destruct (loadCredentials_outcome w) as [[c ->]| ->]; cbn; auto.
Qed.

Create HintDb calm.

#[local] Hint Resolve calm_ret calm_throw calm_gets calm_console_error
  calm_readFile calm_writeFile calm_file_text calm_randomBytes
  calm_fetch_token calm_loadCredentials : calm.

(** Walk down a chain of binds, trying the hints at each link. *)
Ltac calm_chain :=
  repeat first
    [ solve [auto with calm]
    | apply calm_bind; [|intros ?]
    | apply calm_try_catch; [|intros ?]
    | match goal with
      | |- calm (if ?b then _ else _) => destruct b
      | |- calm (match ?x with _ => _ end) => destruct x
      end ].

Lemma calm_ensureGitignore : calm ensureGitignore.
Proof. unfold ensureGitignore. calm_chain. Qed.

Lemma calm_generateCodeVerifier : calm generateCodeVerifier.
Proof. unfold generateCodeVerifier. calm_chain. Qed.

Lemma calm_generateState : calm generateState.
Proof. unfold generateState. calm_chain. Qed.

Lemma calm_awaitCallback (st url : string) (browser : option string) :
  calm (awaitCallback st url browser).
Proof.
  intros w.
  destruct (awaitCallback_setup st url browser w) as (ps & ->).
  unfold await_promise. cbn [inbox clock listener set_spawned set_listener].
  pose proof (event_loop_spec st _ (inbox w) (clock w) _
                (armed_listener_waiting (clock w + CALLBACK_TIMEOUT_MS)))
    as Hloop.
  destruct (event_loop _ _ _ _) as [[evs t'] l'].
  destruct Hloop as (_ & [(Hto & _)|(Hs & _)]).
  - rewrite Hto. cbn. auto.
  - destruct (promise l'); [contradiction| |]; cbn; auto.
Qed.

#[local] Hint Resolve calm_ensureGitignore calm_generateCodeVerifier
  calm_generateState calm_awaitCallback : calm.

Lemma auth_outcome_bind {A} (m : M A) (k : A -> M unit) (global : bool)
  (w0 w : World) :
  calm m ->
  env w = env w0 -> stdout w = stdout w0 ->
  (forall a w', env w' = env w0 -> stdout w' = stdout w0 ->
     auth_outcome global w0 (k a w')) ->
  auth_outcome global w0 ((m ≫= k) w).
Proof.
  intros Hm He Hs Hk. unfold_monad. specialize (Hm w).
  destruct (m w) as [a w1|e w1|c w1|w1]; try contradiction;
    destruct Hm as [He1 Hs1].
  - apply Hk; congruence.
  - cbn. split; congruence.
Qed.

Lemma performAuth_outcome (global : bool) (browser : option string)
  (w : World) :
  auth_outcome global w (performAuth global browser w).
Proof.
  unfold performAuth.
  apply auth_outcome_bind; [auto with calm|reflexivity|reflexivity|].
  intros credentials w1 He1 Hs1.
  apply auth_outcome_bind; [auto with calm|assumption|assumption|].
  intros tokenPath w2 He2 Hs2.
  apply auth_outcome_bind; [apply calm_ret|assumption|assumption|].
  intros _ w3 He3 Hs3.
  apply auth_outcome_bind;
    [destruct global; cbn; auto with calm|assumption|assumption|].
  intros _ w4 He4 Hs4.
  apply auth_outcome_bind; [auto with calm|assumption|assumption|].
  intros codeVerifier w5 He5 Hs5.
  apply auth_outcome_bind; [auto with calm|assumption|assumption|].
  intros st w6 He6 Hs6.
  apply auth_outcome_bind; [auto with calm|assumption|assumption|].
  intros _ w7 He7 Hs7.
  apply auth_outcome_bind; [auto with calm|assumption|assumption|].
  intros _ w8 He8 Hs8.
  apply auth_outcome_bind; [auto with calm|assumption|assumption|].
  intros code w9 He9 Hs9.
  apply auth_outcome_bind; [auto with calm|assumption|assumption|].
  intros data w10 He10 Hs10.
  destruct (truthy (r_error data)); [cbn; auto|].
  unfold date_now, saveToken, mkdir_dirname, writeFile, console_error.
  unfold_monad. cbn.
  split; [reflexivity|]. split; [assumption|]. split; [assumption|].
  rewrite He10. eexists. apply lookup_insert_eq.
Qed.

(** C10.  [performAuth] never returns to its caller and never hangs: it
    throws, or, when authentication succeeds, it ends the process with exit
    code 0 once the token record is written at the requested path.  Hence
    the [auth] command always ends in an exit, with code 0 or, through
    [fail], with code 1, and standard output is never written: the JSON
    success output placed after [performAuth] is not reachable. *)
Theorem performAuth_never_returns (args : list string) (global : bool)
  (browser : option string) (w : World) :
  match performAuth global browser w with
  | Exits code w' =>
      code = 0 /\ stdout w' = stdout w
      /\ exists t, fs w' !! token_path global (env w) = Some (FToken t)
  | Throws _ w' => stdout w' = stdout w
  | Returns _ _ | Hangs _ => False
  end
  /\ match main_auth args w with
     | Exits code w' => stdout w' = stdout w /\ (code = 0 \/ code = 1)
     | Returns _ _ | Throws _ _ | Hangs _ => False
     end.
Proof.
  split.
  - pose proof (performAuth_outcome global browser w) as H.
    destruct (performAuth global browser w); cbn in H; try exact H.
    + destruct H as (_ & Hs). exact Hs.
    + destruct H as (Hc & _ & Hs & Ht). auto.
  - unfold main_auth, try_catch. unfold_monad.
    set (g := bool_decide (is_Some (indexOf "--global" args))).
    set (b := match indexOf "--browser" args with
              | Some i => args !! S i
              | None => None
              end).
    pose proof (performAuth_outcome g b w) as H.
    destruct (performAuth g b w) as [a w1|e w1|c w1|w1]; cbn in H;
      try contradiction.
    + destruct H as (_ & Hs). unfold fail, console_error. unfold_monad. cbn.
      auto.
    + destruct H as (Hc & _ & Hs & _). auto.
Qed.

(** A successful run: the callback carries the code and the expected
    state, the exchange answers without error.  The process exits with
    code 0, the record is in the project file and nothing was printed on
    standard output. *)
Example auth_command_succeeds_silently :
  let granted := callback_request [("code", "ABC"); ("state", sample_state)] in
  let w := sample_world {[sample_credentials_file := sample_credentials]}
             1000 [Reply 80 (sample_response (Some "refresh-1") None None)]
             [(10%N, granted)] in
  exists w',
    main_auth ["auth"] w = Exits 0 w'
    /\ stdout w' = []
    /\ fs w' !! sample_project_file
       = Some (FToken (exchanged_token
                         (sample_response (Some "refresh-1") None None) 1090)).
Proof.
  intros granted w. eexists.
  split; [vm_compute; reflexivity|]. split; vm_compute; reflexivity.
Qed.

(** * Further properties of the code *)

(** ** The token store *)

Lemma loadToken_spec (w : World) :
  loadToken w =
  match fs w !! getProjectTokenPath (env w) with
  | Some f => parse_token (getProjectTokenPath (env w)) f w
  | None =>
      match fs w !! getGlobalTokenPath (env w) with
      | Some f => parse_token (getGlobalTokenPath (env w)) f w
      | None => Throws TokenNotFound w
      end
  end.
Proof.
  unfold loadToken. unfold_monad. rewrite findTokenPath_spec.
  unfold readFile.
  destruct (fs w !! getProjectTokenPath (env w)) eqn:Hp.
  - rewrite Hp. reflexivity.
  - destruct (fs w !! getGlobalTokenPath (env w)) eqn:Hg; [rewrite Hg|];
      reflexivity.
Qed.

(** X1.  A saved record is the one read back: after [saveToken] to the
    project scope, or to the global scope when there is no project file,
    [loadToken] returns that very record, and no other file has changed. *)
Theorem saveToken_then_loadToken (t : TokenData) (global : bool) (w : World) :
  (global = true -> fs w !! getProjectTokenPath (env w) = None) ->
  exists w',
    saveToken t global w = Returns tt w'
    /\ loadToken w' = Returns t w'
    /\ forall p, p <> token_path global (env w) -> fs w' !! p = fs w !! p.
Proof.
  intros Hfree. rewrite saveToken_spec. eexists. split; [reflexivity|].
  split.
  - rewrite loadToken_spec. cbn [fs env set_fs].
    destruct global; cbn [token_path].
    + rewrite lookup_insert_ne by (apply not_eq_sym, token_paths_differ).
      rewrite (Hfree eq_refl), lookup_insert_eq. reflexivity.
    + rewrite lookup_insert_eq. reflexivity.
  - intros p Hp. cbn [fs set_fs]. apply lookup_insert_ne. congruence.
Qed.

(** X2.  A record saved to the global scope while a project file exists is
    written, but a read with no scope still returns the project record. *)
Theorem global_write_is_shadowed (t tp : TokenData) (w : World) :
  fs w !! getProjectTokenPath (env w) = Some (FToken tp) ->
  exists w',
    saveToken t true w = Returns tt w'
    /\ fs w' !! getGlobalTokenPath (env w) = Some (FToken t)
    /\ loadToken w' = Returns tp w'.
Proof.
  intros Hp. rewrite saveToken_spec. eexists. split; [reflexivity|].
  cbn [token_path fs env set_fs]. split; [apply lookup_insert_eq|].
  rewrite loadToken_spec. cbn [fs env set_fs].
  rewrite lookup_insert_ne by (apply not_eq_sym, token_paths_differ).
  rewrite Hp. reflexivity.
Qed.

(** X3.  Whenever [getValidAccessToken] throws (no credentials, no token, a
    refresh the provider rejects, a network failure) every file is as it
    was: a failed refresh never replaces or removes the stored record. *)
Theorem getValidAccessToken_failure_keeps_files (w w' : World) (e : exn) :
  getValidAccessToken w = Throws e w' -> fs w' = fs w.
Proof.
  unfold getValidAccessToken. unfold_monad.
  destruct (loadCredentials_outcome w) as [[c ->]| ->];
    [|intros [= _ <-]; reflexivity].
  rewrite findTokenPath_spec.
  unfold readFile, parse_token, date_now, console_error, refreshAccessToken,
    fetch_token, elapse, saveToken, writeFile, mkdir_dirname.
  unfold_monad.
  repeat (case_match; simplify_eq; cbn in *; try discriminate);
    intros; simplify_eq; try reflexivity.
Qed.

(** ** The credential resolver *)

Lemma truthy_Some (v : option string) :
  truthy v = true -> exists s, v = Some s /\ s <> EmptyString.
Proof.
  destruct v as [s|]; [|discriminate]. cbn. intros H. exists s.
  split; [reflexivity|]. intros ->. discriminate.
Qed.

(** [loadCredentials] as a lookup: the file's pair, else the vault's. *)
Lemma loadCredentials_spec (w : World) :
  loadCredentials w =
  match file_pair (fs w !! CREDENTIALS_PATH (env w)) with
  | Some c => Returns c w
  | None =>
      match vault_pair (env w) with
      | Some c => Returns c w
      | None => Throws CredentialsNotFound w
      end
  end.
Proof.
  unfold loadCredentials, loadCredentialsFrom1Password, readFrom1Password,
    is1PasswordAvailable, readFile, parse_credentials, file_pair, vault_pair.
  unfold_monad.
  destruct (op_installed (env w)) eqn:Ho;
    destruct (truthy (op_vault (env w) !! OP_CLIENT_ID_REF)) eqn:Hi;
    destruct (truthy (op_vault (env w) !! OP_CLIENT_SECRET_REF)) eqn:Hs;
    (destruct (fs w !! CREDENTIALS_PATH (env w)) as [[t|id secret|s]|];
     [| destruct (truthy id) eqn:Hfi; destruct (truthy secret) eqn:Hfs | |]);
    repeat (cbn; rewrite ?Ho, ?Hi, ?Hs, ?Hfi, ?Hfs); reflexivity.
Qed.

Lemma file_pair_Some (f : option file) (c : Credentials) :
  file_pair f = Some c <->
  f = Some (FCreds (Some (client_id c)) (Some (client_secret c)))
  /\ client_id c <> EmptyString /\ client_secret c <> EmptyString.
Proof.
  unfold file_pair. split.
  - destruct f as [[t|id secret|s]|]; try discriminate.
    destruct (truthy id && truthy secret) eqn:H; [|discriminate].
    apply andb_true_iff in H as [Hi Hs].
    apply truthy_Some in Hi as (i & -> & Hine).
    apply truthy_Some in Hs as (s' & -> & Hsne).
    intros [= <-]. cbn. auto.
  - intros (-> & Hi & Hs).
    rewrite (truthy_nonempty _ Hi), (truthy_nonempty _ Hs). cbn.
    destruct c; reflexivity.
Qed.

Lemma vault_pair_Some (e : Env) (c : Credentials) :
  vault_pair e = Some c <->
  op_installed e = true
  /\ op_vault e !! OP_CLIENT_ID_REF = Some (client_id c)
  /\ op_vault e !! OP_CLIENT_SECRET_REF = Some (client_secret c)
  /\ client_id c <> EmptyString /\ client_secret c <> EmptyString.
Proof.
  unfold vault_pair. split.
  - destruct (op_installed e); [|discriminate]. cbn.
    destruct (truthy (op_vault e !! OP_CLIENT_ID_REF)
              && truthy (op_vault e !! OP_CLIENT_SECRET_REF)) eqn:H;
      [|discriminate].
    apply andb_true_iff in H as [Hi Hs].
    apply truthy_Some in Hi as (i & Hi & Hine).
    apply truthy_Some in Hs as (s' & Hs & Hsne).
    rewrite Hi, Hs. intros [= <-]. cbn. auto 10.
  - intros (-> & Hi & Hs & Hine & Hsne). rewrite Hi, Hs.
    rewrite (truthy_nonempty _ Hine), (truthy_nonempty _ Hsne). cbn.
    destruct c; reflexivity.
Qed.

(** X4.  Credentials returned by [loadCredentials] come whole from one
    source, the credentials file or 1Password, never one field from each;
    both fields are non-empty; and the world is unchanged. *)
Theorem loadCredentials_one_source (w w' : World) (c : Credentials) :
  loadCredentials w = Returns c w' ->
  w' = w
  /\ client_id c <> EmptyString /\ client_secret c <> EmptyString
  /\ (fs w !! CREDENTIALS_PATH (env w)
        = Some (FCreds (Some (client_id c)) (Some (client_secret c)))
      \/ (op_installed (env w) = true
          /\ op_vault (env w) !! OP_CLIENT_ID_REF = Some (client_id c)
          /\ op_vault (env w) !! OP_CLIENT_SECRET_REF
             = Some (client_secret c))).
Proof.
  rewrite loadCredentials_spec.
  destruct (file_pair _) as [cf|] eqn:Hf.
  - intros [= -> <-]. apply file_pair_Some in Hf as (Hf & Hi & Hs). auto.
  - destruct (vault_pair _) as [cv|] eqn:Hv; [|discriminate].
    intros [= -> <-].
    apply vault_pair_Some in Hv as (Ho & Hi & Hs & Hine & Hsne). auto 10.
Qed.

(** X5.  The order of [loadCredentials]: a credentials file with two
    non-empty fields wins whatever 1Password holds; without such a file,
    1Password is used when the CLI is installed and both references read as
    non-empty; otherwise the call throws [CredentialsNotFound]. *)
Theorem loadCredentials_order (w : World) :
  (forall id secret,
     fs w !! CREDENTIALS_PATH (env w) = Some (FCreds (Some id) (Some secret)) ->
     id <> EmptyString -> secret <> EmptyString ->
     loadCredentials w
     = Returns {| client_id := id; client_secret := secret |} w)
  /\ (forall id secret,
        file_pair (fs w !! CREDENTIALS_PATH (env w)) = None ->
        op_installed (env w) = true ->
        op_vault (env w) !! OP_CLIENT_ID_REF = Some id ->
        op_vault (env w) !! OP_CLIENT_SECRET_REF = Some secret ->
        id <> EmptyString -> secret <> EmptyString ->
        loadCredentials w
        = Returns {| client_id := id; client_secret := secret |} w)
  /\ (file_pair (fs w !! CREDENTIALS_PATH (env w)) = None ->
      op_installed (env w) = false
      \/ truthy (op_vault (env w) !! OP_CLIENT_ID_REF) = false
      \/ truthy (op_vault (env w) !! OP_CLIENT_SECRET_REF) = false ->
      loadCredentials w = Throws CredentialsNotFound w).
Proof.
  rewrite loadCredentials_spec. split; [|split].
  - intros id secret Hf Hi Hs.
    assert (H : file_pair (fs w !! CREDENTIALS_PATH (env w))
                = Some {| client_id := id; client_secret := secret |})
      by (apply file_pair_Some; auto).
    now rewrite H.
  - intros id secret Hf Ho Hvi Hvs Hi Hs. rewrite Hf.
    assert (H : vault_pair (env w)
                = Some {| client_id := id; client_secret := secret |})
      by (apply vault_pair_Some; cbn; auto 10).
    now rewrite H.
  - intros Hf Hnone. rewrite Hf. unfold vault_pair.
    destruct Hnone as [->|[->| ->]]; rewrite ?andb_false_r; reflexivity.
Qed.

(** ** The ignore file *)

Lemma substring_prefix (p b : string) :
  substring 0 (String.length p) (p +:+ b) = p.
Proof.
  induction p as [|c p IH].
  - destruct b; reflexivity.
  - change (String c p +:+ b) with (String c (p +:+ b)).
    cbn [String.length substring]. f_equal. exact IH.
Qed.

Lemma substring_middle (a p b : string) :
  substring (String.length a) (String.length p) (a +:+ p +:+ b) = p.
Proof.
  induction a as [|c a IH].
  - change (EmptyString +:+ (p +:+ b)) with (p +:+ b).
    apply substring_prefix.
  - change (String c a +:+ (p +:+ b)) with (String c (a +:+ (p +:+ b))).
    exact IH.
Qed.

Lemma includes_middle (a p b : string) :
  p <> EmptyString -> includes p (a +:+ p +:+ b) = true.
Proof.
  intros Hp. unfold includes. apply bool_decide_eq_true.
  destruct (String.index 0 p (a +:+ p +:+ b)) as [n|] eqn:Hi; [eauto|].
  exfalso.
  apply (index_correct3 0 (String.length a) p _ Hi Hp (Nat.le_0_l _)).
  apply substring_middle.
Qed.

Lemma ensureGitignore_cases (w : World) :
  let gp := gitignore_path (env w) in
  match fs w !! gp with
  | None =>
      ensureGitignore w
      = Returns tt
          (set_stderr (("✓ Created .gitignore with " +:+ IGNORE_PATTERN)
                       :: stderr w)
             (set_fs (<[gp := FText ("# Microsoft skill tokens" +:+ nl
                                     +:+ IGNORE_PATTERN +:+ nl)]> (fs w)) w))
  | Some (FText content) =>
      if includes IGNORE_PATTERN content then ensureGitignore w = Returns tt w
      else
        ensureGitignore w
        = Returns tt
            (set_stderr (("✓ Added " +:+ IGNORE_PATTERN +:+ " to .gitignore")
                         :: stderr w)
               (set_fs (<[gp := FText (content +:+ nl
                                       +:+ "# Microsoft skill tokens" +:+ nl
                                       +:+ IGNORE_PATTERN +:+ nl)]> (fs w)) w))
  | Some _ => ensureGitignore w = Returns tt w
  end.
Proof.
  unfold ensureGitignore, readFile, file_text, writeFile, console_error,
    gitignore_path, IGNORE_PATTERN.
  unfold_monad. cbn zeta.
  destruct (fs w !! path_join (cwd (env w)) ".gitignore") as [[t|i s|content]|];
    try reflexivity.
  cbn. destruct (includes ".claude/*.local.*" content); reflexivity.
Qed.

Lemma string_app_assoc (a b c : string) : (a +:+ b) +:+ c = a +:+ (b +:+ c).
Proof.
  induction a as [|x a IH]; [reflexivity|].
  change ((String x a +:+ b) +:+ c) with (String x ((a +:+ b) +:+ c)).
  change (String x a +:+ (b +:+ c)) with (String x (a +:+ (b +:+ c))).
  now rewrite IH.
Qed.


Lemma appended_block_includes (content : string) :
  includes ".claude/*.local.*"
    (content +:+ nl +:+ "# Microsoft skill tokens" +:+ nl
     +:+ ".claude/*.local.*" +:+ nl) = true.
Proof.
  rewrite <- !string_app_assoc.
  rewrite (string_app_assoc _ ".claude/*.local.*" nl).
  apply includes_middle. discriminate.
Qed.

Lemma created_block_includes :
  includes ".claude/*.local.*"
    ("# Microsoft skill tokens" +:+ nl +:+ ".claude/*.local.*" +:+ nl) = true.
Proof. vm_compute. reflexivity. Qed.


(** X7.  [ensureGitignore] is idempotent: run again in the world it left,
    it changes nothing, neither the file nor the log. *)
Theorem ensureGitignore_idempotent (w w1 : World) :
  ensureGitignore w = Returns tt w1 -> ensureGitignore w1 = Returns tt w1.
Proof.
  intros Hrun.
  pose proof (ensureGitignore_cases w) as H. cbn zeta in H.
  pose proof (ensureGitignore_cases w1) as H1. cbn zeta in H1.
  unfold IGNORE_PATTERN in *.
  destruct (fs w !! gitignore_path (env w)) as [[t|i s|content]|] eqn:Hgp.
  - rewrite H in Hrun. injection Hrun as <-. now rewrite Hgp in H1.
  - rewrite H in Hrun. injection Hrun as <-. now rewrite Hgp in H1.
  - destruct (includes ".claude/*.local.*" content) eqn:Hinc.
    + rewrite H in Hrun. injection Hrun as <-.
      rewrite Hgp, Hinc in H1. exact H1.
    + rewrite H in Hrun. injection Hrun as <-.
      cbn [fs env set_fs set_stderr] in H1.
      rewrite lookup_insert_eq, appended_block_includes in H1. exact H1.
  - rewrite H in Hrun. injection Hrun as <-.
    cbn [fs env set_fs set_stderr] in H1.
    rewrite lookup_insert_eq in H1.
    rewrite created_block_includes in H1. exact H1.
Qed.

(** ** Authentication status *)



Lemma stored_in_loadToken (w : World) (global : bool) (t : TokenData) :
  stored_in w global t -> loadToken w = Returns t w.
Proof.
  intros Hs. rewrite loadToken_spec. unfold stored_in in Hs.
  destruct global; [destruct Hs as [Hp Hg]; rewrite Hp, Hg | rewrite Hs];
    reflexivity.
Qed.

Lemma refreshAccessToken_sends (c : Credentials) (rt : option string)
  (p : string) (w : World) :
  sent (final_world (refreshAccessToken c rt p w))
  = refresh_form c rt :: sent w.
Proof.
  unfold refreshAccessToken, fetch_token, elapse, saveToken, writeFile,
    mkdir_dirname, date_now.
  unfold_monad. cbn.
  destruct (endpoint w) as [|[d data|d] rest]; cbn;
    [reflexivity| |reflexivity].
  destruct (truthy (r_error data)); reflexivity.
Qed.

(** X9.  [checkAuth] knows nothing of the refresh.  A token inside the
    five-minute buffer is reported authenticated although the next
    [getValidAccessToken] calls the token endpoint; an expired token is
    reported not authenticated although [getValidAccessToken] still succeeds
    when the refresh does. *)
Theorem checkAuth_disregards_refresh (w : World) (c : Credentials)
  (global : bool) (t : TokenData) :
  loadCredentials w = Returns c w ->
  stored_in w global t ->
  (clock w < expires_at t -> expires_at t < clock w + 5 * 60 * 1000 ->
   checkAuth w = Returns (true, Some (expires_at t), None) w
   /\ sent (final_world (getValidAccessToken w))
      = refresh_form c (refresh_token t) :: sent w)
  /\ (expires_at t <= clock w ->
      forall d data rest,
        endpoint w = Reply d data :: rest ->
        truthy (r_error data) = false ->
        checkAuth w = Returns (false, Some (expires_at t), None) w
        /\ exists w', getValidAccessToken w
                      = Returns (r_access_token data) w').
Proof.
  intros Hc Hs.
  assert (Hcheck : checkAuth w
                   = Returns (bool_decide (clock w < expires_at t),
                              Some (expires_at t), None) w).
  { unfold checkAuth, try_catch, date_now. unfold_monad.
    rewrite (stored_in_loadToken w global t Hs). reflexivity. }
  rewrite (getValidAccessToken_after_read w c global t Hc Hs).
  split.
  - intros Hlive Hsoon. split.
    + rewrite Hcheck, bool_decide_eq_true_2 by exact Hlive. reflexivity.
    + apply Z.ltb_lt in Hsoon. rewrite Hsoon.
      pose proof (refreshAccessToken_sends c (refresh_token t)
                    (token_path global (env w))
                    (set_stderr ("Token expiring soon, refreshing..."
                                 :: stderr w) w)) as Hsent.
      destruct (refreshAccessToken _ _ _ _); exact Hsent.
  - intros Hdead d data rest He Herr. split.
    + rewrite Hcheck, bool_decide_eq_false_2 by lia. reflexivity.
    + assert (Hlt : (expires_at t <? clock w + 5 * 60 * 1000) = true)
        by (apply Z.ltb_lt; lia).
      rewrite Hlt.
      destruct (refreshAccessToken_success
                  (set_stderr ("Token expiring soon, refreshing..."
                               :: stderr w) w)
                  c (refresh_token t) global d data rest He Herr)
        as (w' & Hrun & _).
      cbn [env set_stderr] in Hrun. rewrite Hrun. eauto.
Qed.

(** ** The [auth] command without credentials *)

(** X10.  Without credentials the [auth] command fails at once: it prints
    the error on standard error and exits with code 1; no browser is
    launched, no listener opened and no file written. *)
Theorem main_auth_without_credentials (args : list string) (w : World) :
  loadCredentials w = Throws CredentialsNotFound w ->
  main_auth args w
  = Exits 1
      (set_stderr
         ("Error: No credentials found. Run: pnpm tsx scripts/microsoft.ts setup"
          :: stderr w) w).
Proof.
  intros Hc. unfold main_auth, try_catch, performAuth. unfold_monad.
  rewrite Hc. reflexivity.
Qed.

(** ** Files a failed authentication leaves alone *)

Lemma same_files_refl (w : World) : same_files w w.
Proof. split; auto. Qed.

Lemma same_files_trans (w1 w2 w3 : World) :
  same_files w1 w2 -> same_files w2 w3 -> same_files w1 w3.
Proof.
  intros [He1 Hf1] [He2 Hf2]. split; [congruence|].
  intros p Hp. rewrite Hf2 by (rewrite He1; exact Hp). auto.
Qed.

Lemma same_files_fs (w w' : World) :
  env w' = env w -> fs w' = fs w -> same_files w w'.
Proof. intros He Hf. split; [exact He|]. intros p _. now rewrite Hf. Qed.

Section Gentle.

Context {A B : Type}.

Lemma gentle_ret (a : A) : gentle (ret a).
Proof. intros w. apply same_files_refl. Qed.

Lemma gentle_throw (e : exn) : gentle (throw (A:=A) e).
Proof. intros w. apply same_files_refl. Qed.

Lemma gentle_gets (f : World -> A) : gentle (gets f).
Proof. intros w. apply same_files_refl. Qed.

Lemma gentle_bind (m : M A) (k : A -> M B) :
  gentle m -> (forall a, gentle (k a)) -> gentle (m ≫= k).
Proof.
  intros Hm Hk w. unfold_monad. specialize (Hm w).
  destruct (m w) as [a w1|e w1|c w1|w1]; try exact Hm.
  specialize (Hk a w1).
  destruct (k a w1); try exact Hk; eapply same_files_trans; eauto.
Qed.

Lemma gentle_try_catch (m : M A) (h : exn -> M A) :
  gentle m -> (forall e, gentle (h e)) -> gentle (try_catch m h).
Proof.
  intros Hm Hh w. unfold try_catch. specialize (Hm w).
  destruct (m w) as [a w1|e w1|c w1|w1]; try exact Hm.
  specialize (Hh e w1).
  destruct (h e w1); try exact Hh; eapply same_files_trans; eauto.
Qed.

End Gentle.

Lemma gentle_console_error (line : string) : gentle (console_error line).
Proof. intros w. apply same_files_fs; reflexivity. Qed.

Lemma gentle_randomBytes (n : nat) : gentle (randomBytes n).
Proof. intros w. apply same_files_fs; reflexivity. Qed.

Lemma gentle_fetch_token (form : list (string * string)) :
  gentle (fetch_token form).
Proof.
  intros w. unfold fetch_token, elapse. unfold_monad.
  destruct (endpoint w) as [|[d data|d] rest]; cbn;
    apply same_files_fs; reflexivity.
Qed.

Lemma gentle_loadCredentials : gentle loadCredentials.
Proof.
  intros w. destruct (loadCredentials_outcome w) as [[c ->]| ->];
    apply same_files_refl.
Qed.

Lemma gentle_ensureGitignore : gentle ensureGitignore.
Proof.
  intros w. pose proof (ensureGitignore_cases w) as H. cbn zeta in H.
  destruct (fs w !! gitignore_path (env w)) as [[t|i s|content]|];
    [| |destruct (includes IGNORE_PATTERN content)|]; rewrite H;
    try apply same_files_refl;
    (split; [reflexivity|]; intros p Hp; cbn [fs set_fs set_stderr];
     apply lookup_insert_ne; congruence).
Qed.

Lemma gentle_awaitCallback (st url : string) (browser : option string) :
  gentle (awaitCallback st url browser).
Proof.
  intros w.
  destruct (awaitCallback_setup st url browser w) as (ps & ->).
  unfold await_promise. cbn [inbox clock listener set_spawned set_listener].
  pose proof (event_loop_spec st _ (inbox w) (clock w) _
                (armed_listener_waiting (clock w + CALLBACK_TIMEOUT_MS)))
    as Hloop.
  destruct (event_loop _ _ _ _) as [[evs t'] l'].
  destruct Hloop as (_ & [(Hto & _)|(Hs & _)]).
  - rewrite Hto. apply same_files_fs; reflexivity.
  - destruct (promise l'); [contradiction| |];
      apply same_files_fs; reflexivity.
Qed.

Create HintDb gentle.

#[local] Hint Resolve gentle_ret gentle_throw gentle_gets gentle_console_error
  gentle_randomBytes gentle_fetch_token gentle_loadCredentials
  gentle_ensureGitignore gentle_awaitCallback : gentle.

Lemma gentle_generateCodeVerifier : gentle generateCodeVerifier.
Proof.
  unfold generateCodeVerifier. apply gentle_bind; auto with gentle.
Qed.

Lemma gentle_generateState : gentle generateState.
Proof. unfold generateState. apply gentle_bind; auto with gentle. Qed.

#[local] Hint Resolve gentle_generateCodeVerifier gentle_generateState
  : gentle.

Lemma throws_bind {A} (m : M A) (k : A -> M unit) (w0 w : World) :
  gentle m ->
  same_files w0 w ->
  (forall a w1, same_files w0 w1 ->
     forall e w', k a w1 = Throws e w' -> same_files w0 w') ->
  forall e w', (m ≫= k) w = Throws e w' -> same_files w0 w'.
Proof.
  intros Hm Hw Hk e w'. unfold_monad. specialize (Hm w).
  destruct (m w) as [a w1|e1 w1|c w1|w1]; try contradiction.
  - apply Hk. eapply same_files_trans; eauto.
  - intros [= _ <-]. eapply same_files_trans; eauto.
Qed.

Lemma ignore_file_is_no_token_file (e : Env) :
  getProjectTokenPath e <> gitignore_path e
  /\ getGlobalTokenPath e <> gitignore_path e
  /\ CREDENTIALS_PATH e <> gitignore_path e.
Proof.
  unfold getProjectTokenPath, getGlobalTokenPath, CREDENTIALS_PATH,
    gitignore_path, path_join, PROJECT_TOKEN_FILE, GLOBAL_TOKEN_FILE.
  repeat split; intros H;
    apply (f_equal (fun s => rev (list_ascii_of_string s))) in H;
    rewrite !list_ascii_of_string_app, !rev_app_distr in H;
    cbn [list_ascii_of_string rev app] in H; discriminate H.
Qed.

(** X11.  When [performAuth] throws (denial, state mismatch, timeout, a
    rejected or failed exchange) the token files and the credentials file
    are as they were; the only file it may have written is the ignore
    file. *)
Theorem performAuth_failure_keeps_files (global : bool)
  (browser : option string) (w w' : World) (e : exn) :
  performAuth global browser w = Throws e w' ->
  fs w' !! getProjectTokenPath (env w) = fs w !! getProjectTokenPath (env w)
  /\ fs w' !! getGlobalTokenPath (env w) = fs w !! getGlobalTokenPath (env w)
  /\ fs w' !! CREDENTIALS_PATH (env w) = fs w !! CREDENTIALS_PATH (env w)
  /\ forall p, p <> gitignore_path (env w) -> fs w' !! p = fs w !! p.
Proof.
  intros Hrun.
  assert (Hsame : same_files w w').
  { revert e w' Hrun. unfold performAuth.
    apply throws_bind; [auto with gentle|apply same_files_refl|].
    intros credentials w1 H1.
    apply throws_bind; [auto with gentle|assumption|].
    intros tokenPath w2 H2.
    apply throws_bind; [apply gentle_ret|assumption|].
    intros _ w3 H3.
    apply throws_bind; [destruct global; cbn; auto with gentle|assumption|].
    intros _ w4 H4.
    apply throws_bind; [auto with gentle|assumption|].
    intros codeVerifier w5 H5.
    apply throws_bind; [auto with gentle|assumption|].
    intros st w6 H6.
    apply throws_bind; [auto with gentle|assumption|].
    intros _ w7 H7.
    apply throws_bind; [auto with gentle|assumption|].
    intros _ w8 H8.
    apply throws_bind; [auto with gentle|assumption|].
    intros code w9 H9.
    apply throws_bind; [auto with gentle|assumption|].
    intros data w10 H10 e w'.
    destruct (truthy (r_error data)).
    - intros [= _ <-]. exact H10.
    - unfold date_now, saveToken, mkdir_dirname, writeFile, console_error.
      unfold_monad. cbn. discriminate. }
  destruct Hsame as [_ Hfiles].
  destruct (ignore_file_is_no_token_file (env w)) as (Hp & Hg & Hc).
  auto.
Qed.

(** ** A successful authentication, end to end *)







(** ** After a refresh *)




(** ** Interactive setup *)

Lemma bind_inv {A B} (m : M A) (k : A -> M B) (w w' : World) (b : B) :
  (m ≫= k) w = Returns b w' ->
  exists a w1, m w = Returns a w1 /\ k a w1 = Returns b w'.
Proof.
  unfold_monad. destruct (m w) as [a w1|e w1|c w1|w1]; try discriminate.
  eauto.
Qed.

Lemma askQuestion_inv (question : string) (answers : list string)
  (w w' : World) (r : string * list string) :
  askQuestion question answers w = Returns r w' ->
  answers = r.1 :: r.2 /\ env w' = env w /\ fs w' = fs w.
Proof.
  unfold askQuestion, console_error, unanswered. unfold_monad. cbn.
  destruct answers as [|a rest]; [discriminate|].
  intros [= <- <-]. auto.
Qed.

Lemma console_error_inv (line : string) (w w' : World) (u : unit) :
  console_error line w = Returns u w' -> env w' = env w /\ fs w' = fs w.
Proof.
  unfold console_error, modify. intros H. injection H as _ <-. auto.
Qed.

Lemma confirm_overwrite_inv (answers : list string) (w w' : World)
  (r : bool * list string) :
  confirm_overwrite answers w = Returns r w' ->
  env w' = env w /\ fs w' = fs w.
Proof.
  unfold confirm_overwrite, credentialsFileExists, fs_access, try_catch,
    askQuestion, console_error, unanswered.
  unfold_monad. cbn.
  destruct (fs w !! CREDENTIALS_PATH (env w)); cbn;
    [|intros ?; simplify_eq; auto].
  destruct answers as [|a rest]; cbn; [discriminate|].
  destruct (is_yes a); cbn; intros ?; simplify_eq; auto.
Qed.

Lemma choose_credentials_inv (answers : list string) (w w' : World)
  (c : Credentials) :
  choose_credentials answers w = Returns c w' ->
  env w' = env w /\ fs w' = fs w
  /\ client_id c <> EmptyString /\ client_secret c <> EmptyString.
Proof.
  unfold choose_credentials, is1PasswordAvailable, askQuestion,
    console_error, unanswered, loadCredentialsFrom1Password,
    readFrom1Password.
  unfold_monad. cbn.
  destruct (op_installed (env w)) eqn:Ho; cbn;
    (destruct answers as [|choice rest]; cbn; [discriminate|]).
  - destruct (String.eqb choice "1"); cbn.
    + rewrite Ho.
      destruct (truthy (op_vault (env w) !! OP_CLIENT_ID_REF)) eqn:Hi;
        cbn; [|discriminate].
      destruct (truthy (op_vault (env w) !! OP_CLIENT_SECRET_REF)) eqn:Hs;
        cbn; [|discriminate].
      apply truthy_Some in Hi as (i & Hi & Hine).
      apply truthy_Some in Hs as (s & Hs & Hsne).
      rewrite Hi, Hs. cbn. intros [= <- <-]. cbn. auto.
    + destruct rest as [|id [|secret rest']]; cbn; try discriminate.
      destruct (String.eqb id EmptyString) eqn:Hid; cbn; [discriminate|].
      destruct (String.eqb secret EmptyString) eqn:Hsec; cbn; [discriminate|].
      intros [= <- <-]. cbn.
      apply String.eqb_neq in Hid, Hsec. auto.
  - destruct rest as [|id [|secret rest']]; cbn; try discriminate.
    destruct (String.eqb id EmptyString) eqn:Hid; cbn; [discriminate|].
    destruct (String.eqb secret EmptyString) eqn:Hsec; cbn; [discriminate|].
    intros [= <- <-]. cbn.
    apply String.eqb_neq in Hid, Hsec. auto.
Qed.

(** X14.  Whenever [performSetup] returns it has either written nothing
    (the user declined to overwrite) or written a credentials file with two
    non-empty fields, which [loadCredentials] then returns. *)
Theorem performSetup_saves_loadable_credentials (answers : list string)
  (w w' : World) :
  performSetup answers w = Returns tt w' ->
  fs w' = fs w
  \/ exists c,
       fs w' = <[CREDENTIALS_PATH (env w) :=
                   FCreds (Some (client_id c)) (Some (client_secret c))]>
                 (fs w)
       /\ client_id c <> EmptyString /\ client_secret c <> EmptyString
       /\ loadCredentials w' = Returns c w'.
Proof.
  unfold performSetup. intros H.
  apply bind_inv in H as ([] & w1 & Hbanner & H).
  apply console_error_inv in Hbanner as [He1 Hf1].
  apply bind_inv in H as ([proceed rest] & w2 & Hconfirm & H).
  apply confirm_overwrite_inv in Hconfirm as [He2 Hf2].
  cbn [fst snd] in H. destruct proceed; cbn [negb] in H.
  - apply bind_inv in H as (c & w3 & Hchoose & H).
    apply choose_credentials_inv in Hchoose as (He3 & Hf3 & Hi & Hs).
    right. exists c.
    unfold mkdir_dirname, writeFile, console_error in H. unfold_monad.
    cbn in H. injection H as <-. cbn [fs env set_fs set_stderr].
    assert (Henv : env w3 = env w) by congruence.
    assert (Hfs : fs w3 = fs w) by congruence.
    rewrite Henv, Hfs. split; [reflexivity|]. split; [exact Hi|].
    split; [exact Hs|].
    rewrite loadCredentials_spec. cbn [fs env set_fs set_stderr].
    rewrite Henv, lookup_insert_eq. cbn [file_pair].
    rewrite (truthy_nonempty _ Hi), (truthy_nonempty _ Hs). cbn.
    destruct c; reflexivity.
  - injection H as <-. left. congruence.
Qed.

(** X15.  With a credentials file in place, any first answer other than
    [y] or [Y] cancels the setup: nothing is written and no further question
    is asked. *)
Theorem performSetup_asks_before_overwriting (answer : string)
  (rest : list string) (f : file) (w : World) :
  fs w !! CREDENTIALS_PATH (env w) = Some f ->
  is_yes answer = false ->
  exists w',
    performSetup (answer :: rest) w = Returns tt w'
    /\ fs w' = fs w
    /\ hd EmptyString (stderr w') = "Setup cancelled.".
Proof.
  intros Hf Hno.
  unfold performSetup, confirm_overwrite, credentialsFileExists, fs_access,
    try_catch, askQuestion, console_error.
  unfold_monad. cbn. rewrite Hf. cbn. rewrite Hno. cbn.
  eexists. repeat split.
Qed.

(** ** The browser hint *)

Lemma openBrowser_hint_off_darwin (url : string) (browser : option string)
  (w : World) :
  String.eqb (platform (env w)) "darwin" = false ->
  openBrowser url browser w = openBrowser url None w.
Proof.
  intros Hp. unfold openBrowser. unfold_monad. cbn. rewrite Hp. reflexivity.
Qed.

Lemma awaitCallback_hint_off_darwin (st url : string)
  (browser : option string) (w : World) :
  String.eqb (platform (env w)) "darwin" = false ->
  awaitCallback st url browser w = awaitCallback st url None w.
Proof.
  intros Hp. unfold awaitCallback, date_now, try_catch. unfold_monad.
  cbn [set_listener].
  rewrite (openBrowser_hint_off_darwin url browser) by exact Hp.
  reflexivity.
Qed.

Lemma bind_ext_calm {A B} (m : M A) (k k' : A -> M B) (w : World) :
  calm m ->
  (forall a w1, env w1 = env w -> k a w1 = k' a w1) ->
  (m ≫= k) w = (m ≫= k') w.
Proof.
  intros Hm Hk. unfold_monad. specialize (Hm w).
  destruct (m w) as [a w1|e w1|c w1|w1]; try reflexivity.
  apply Hk, Hm.
Qed.

(** X16.  Off macOS the browser hint has no effect: [performAuth] with a
    hint behaves exactly as without one. *)
Theorem browser_hint_ignored_off_darwin (global : bool)
  (browser : option string) (w : World) :
  String.eqb (platform (env w)) "darwin" = false ->
  performAuth global browser w = performAuth global None w.
Proof.
  intros Hp. unfold performAuth.
  apply bind_ext_calm; [apply calm_loadCredentials|].
  intros credentials w1 He1.
  apply bind_ext_calm; [apply calm_gets|]. intros tokenPath w2 He2.
  apply bind_ext_calm; [apply calm_ret|]. intros _ w3 He3.
  apply bind_ext_calm;
    [destruct global; cbn; [apply calm_ret|apply calm_ensureGitignore]|].
  intros _ w4 He4.
  apply bind_ext_calm; [apply calm_generateCodeVerifier|].
  intros codeVerifier w5 He5.
  apply bind_ext_calm; [apply calm_generateState|]. intros st w6 He6.
  apply bind_ext_calm; [apply calm_console_error|]. intros _ w7 He7.
  apply bind_ext_calm; [apply calm_console_error|]. intros _ w8 He8.
  unfold_monad.
  rewrite (awaitCallback_hint_off_darwin _ _ browser w8) by congruence.
  reflexivity.
Qed.

(** ** Names of downloaded files *)

Lemma In_firstn {A} (n : nat) (l : list A) (x : A) :
  In x (firstn n l) -> In x l.
Proof.
  revert l. induction n as [|n IH]; intros [|y l]; cbn; try tauto.
  intros [->|H]; auto.
Qed.

(** X17.  The file name [downloadMessage] builds: its subject part has
    between 1 and 50 units, all ASCII letters, digits or underscores (the
    fallback [No Subject] becomes [No_Subject]); the whole name has at most
    63 units; and any unit that is not a letter, a digit, an underscore or a
    dot, a path separator in particular, comes from the first eight units of
    the message id, which are not sanitised. *)
Theorem download_filename_safe (subject : option (list N))
  (messageId : list N) :
  let name := download_filename subject messageId in
  (0 < length (safeSubject subject) <= 50)%nat
  /\ (forall c, In c (safeSubject subject) ->
        is_alnum c = true \/ c = underscore)
  /\ (length name <= 63)%nat
  /\ (forall c, In c name ->
        is_alnum c = true \/ c = underscore \/ c = 46%N
        \/ In c (firstn 8 messageId))
  /\ safeSubject None = units "No_Subject"
  /\ safeSubject (Some []) = units "No_Subject".
Proof.
  intros name.
  assert (Hlen : (0 < length (safeSubject subject) <= 50)%nat).
  { unfold safeSubject. rewrite length_firstn, length_map.
    destruct subject as [[|c cs]|]; cbn [length units]; try (cbn; lia).
    lia. }
  assert (Hsafe : forall c, In c (safeSubject subject) ->
                    is_alnum c = true \/ c = underscore).
  { unfold safeSubject. intros c Hin. apply In_firstn in Hin.
    apply in_map_iff in Hin as (x & <- & _).
    destruct (is_alnum x) eqn:Hx; auto. }
  split; [exact Hlen|]. split; [exact Hsafe|]. split.
  - subst name. unfold download_filename.
    rewrite !length_app, length_firstn. cbn [units length map
      list_ascii_of_string]. lia.
  - split; [|split; reflexivity].
    subst name. unfold download_filename. intros c Hin.
    rewrite !in_app_iff in Hin.
    destruct Hin as [Hin|[Hin|[Hin|Hin]]].
    + destruct (Hsafe c Hin); auto.
    + cbn in Hin. destruct Hin as [<-|[]]. auto.
    + auto.
    + cbn in Hin. destruct Hin as [<-|[<-|[<-|[<-|[]]]]]; auto.
Qed.

(** ** The encodings lose nothing *)

Lemma in_all_bytes (b : Z) : is_byte b -> In b all_bytes.
Proof.
  intros [Hlo Hhi]. unfold all_bytes. apply in_map_iff.
  exists (Z.to_nat b). split; [lia|]. apply in_seq. lia.
Qed.

Lemma check_bytes (P : Z -> bool) :
  forallb P all_bytes = true -> forall b, is_byte b -> P b = true.
Proof.
  intros H b Hb. rewrite forallb_forall in H. apply H, in_all_bytes, Hb.
Qed.

Lemma check_byte_pairs (P : Z -> Z -> bool) :
  forallb (fun a => forallb (P a) all_bytes) all_bytes = true ->
  forall a b, is_byte a -> is_byte b -> P a b = true.
Proof.
  intros H a b Ha Hb.
  apply (check_bytes (P a)); [|exact Hb].
  apply (check_bytes (fun a => forallb (P a) all_bytes) H a Ha).
Qed.

Lemma hex_byte_roundtrip (b : Z) :
  is_byte b ->
  Z.lor (Z.shiftl (nibble_of (nibble_char (Z.shiftr b 4))) 4)
        (nibble_of (nibble_char (Z.land b 15))) = b.
Proof.
  intros Hb. apply Z.eqb_eq.
  apply (check_bytes
           (fun b => Z.lor (Z.shiftl (nibble_of (nibble_char (Z.shiftr b 4))) 4)
                           (nibble_of (nibble_char (Z.land b 15))) =? b));
    [vm_compute; reflexivity | exact Hb].
Qed.

Lemma unhex_hex_chars (bs : list Z) :
  Forall is_byte bs -> unhex (hex_chars bs) = bs.
Proof.
  unfold hex_chars. induction 1 as [|b bs Hb _ IH]; [reflexivity|].
  cbn [flat_map app unhex]. now rewrite hex_byte_roundtrip, IH.
Qed.

Lemma first_byte_roundtrip (a b : Z) :
  is_byte a -> is_byte b ->
  first_byte (sextet_char (Z.shiftr a 2))
    (sextet_char (Z.lor (Z.shiftl (Z.land a 3) 4) (Z.shiftr b 4))) = a.
Proof.
  intros Ha Hb. apply Z.eqb_eq.
  apply (check_byte_pairs
           (fun a b =>
              first_byte (sextet_char (Z.shiftr a 2))
                (sextet_char (Z.lor (Z.shiftl (Z.land a 3) 4) (Z.shiftr b 4)))
              =? a));
    [vm_compute; reflexivity | exact Ha | exact Hb].
Qed.

Lemma first_byte_alone (a : Z) :
  is_byte a ->
  first_byte (sextet_char (Z.shiftr a 2))
    (sextet_char (Z.shiftl (Z.land a 3) 4)) = a.
Proof.
  intros Ha. apply Z.eqb_eq.
  apply (check_bytes
           (fun a =>
              first_byte (sextet_char (Z.shiftr a 2))
                (sextet_char (Z.shiftl (Z.land a 3) 4)) =? a));
    [vm_compute; reflexivity | exact Ha].
Qed.

Lemma second_byte_high (a b : Z) :
  is_byte a -> is_byte b ->
  Z.land (sextet_of (sextet_char (Z.lor (Z.shiftl (Z.land a 3) 4)
                                        (Z.shiftr b 4)))) 15
  = Z.shiftr b 4.
Proof.
  intros Ha Hb. apply Z.eqb_eq.
  apply (check_byte_pairs
           (fun a b =>
              Z.land (sextet_of (sextet_char
                                   (Z.lor (Z.shiftl (Z.land a 3) 4)
                                          (Z.shiftr b 4)))) 15
              =? Z.shiftr b 4));
    [vm_compute; reflexivity | exact Ha | exact Hb].
Qed.

Lemma second_byte_low (b c : Z) :
  is_byte b -> is_byte c ->
  Z.shiftr (sextet_of (sextet_char (Z.lor (Z.shiftl (Z.land b 15) 2)
                                          (Z.shiftr c 6)))) 2
  = Z.land b 15.
Proof.
  intros Hb Hc. apply Z.eqb_eq.
  apply (check_byte_pairs
           (fun b c =>
              Z.shiftr (sextet_of (sextet_char
                                     (Z.lor (Z.shiftl (Z.land b 15) 2)
                                            (Z.shiftr c 6)))) 2
              =? Z.land b 15));
    [vm_compute; reflexivity | exact Hb | exact Hc].
Qed.

Lemma second_byte_low_alone (b : Z) :
  is_byte b ->
  Z.shiftr (sextet_of (sextet_char (Z.shiftl (Z.land b 15) 2))) 2
  = Z.land b 15.
Proof.
  intros Hb. apply Z.eqb_eq.
  apply (check_bytes
           (fun b =>
              Z.shiftr (sextet_of (sextet_char (Z.shiftl (Z.land b 15) 2))) 2
              =? Z.land b 15));
    [vm_compute; reflexivity | exact Hb].
Qed.

Lemma nibbles_rejoin (b : Z) :
  is_byte b -> Z.lor (Z.shiftl (Z.shiftr b 4) 4) (Z.land b 15) = b.
Proof.
  intros Hb. apply Z.eqb_eq.
  apply (check_bytes
           (fun b => Z.lor (Z.shiftl (Z.shiftr b 4) 4) (Z.land b 15) =? b));
    [vm_compute; reflexivity | exact Hb].
Qed.

Lemma third_byte_roundtrip (b c : Z) :
  is_byte b -> is_byte c ->
  third_byte
    (sextet_char (Z.lor (Z.shiftl (Z.land b 15) 2) (Z.shiftr c 6)))
    (sextet_char (Z.land c 63)) = c.
Proof.
  intros Hb Hc. apply Z.eqb_eq.
  apply (check_byte_pairs
           (fun b c =>
              third_byte
                (sextet_char (Z.lor (Z.shiftl (Z.land b 15) 2)
                                    (Z.shiftr c 6)))
                (sextet_char (Z.land c 63)) =? c));
    [vm_compute; reflexivity | exact Hb | exact Hc].
Qed.

Lemma unbase64url_base64url_chars (bs : list Z) :
  Forall is_byte bs -> unbase64url (base64url_chars bs) = bs.
Proof.
  induction bs as [| a | a b | a b c l IH] using triples_ind; intros Hall.
  - reflexivity.
  - apply Forall_inv in Hall as Ha. cbn [base64url_chars unbase64url].
    now rewrite first_byte_alone.
  - apply Forall_inv in Hall as Ha.
    apply Forall_inv_tail, Forall_inv in Hall as Hb.
    cbn [base64url_chars unbase64url].
    rewrite first_byte_roundtrip by assumption.
    unfold second_byte.
    rewrite second_byte_high, second_byte_low_alone, nibbles_rejoin
      by assumption.
    reflexivity.
  - apply Forall_inv in Hall as Ha.
    apply Forall_inv_tail in Hall as Hall1.
    apply Forall_inv in Hall1 as Hb.
    apply Forall_inv_tail in Hall1 as Hall2.
    apply Forall_inv in Hall2 as Hc.
    apply Forall_inv_tail in Hall2 as Hl.
    cbn [base64url_chars unbase64url].
    rewrite first_byte_roundtrip, third_byte_roundtrip by assumption.
    unfold second_byte.
    rewrite second_byte_high, second_byte_low, nibbles_rejoin by assumption.
    now rewrite IH.
Qed.

Lemma entropy_bytes (w : World) (k n : nat) :
  Forall is_byte (map (fun i => entropy (env w) i mod 256) (seq k n)).
Proof.
  apply Forall_map, List.Forall_forall. intros i _.
  apply Z.mod_pos_bound. reflexivity.
Qed.

(** X18.  The texts keep the entropy: two runs of the PKCE generation give
    the same verifier exactly when they drew the same 32 bytes, and the same
    state exactly when they drew the same 16 bytes. *)
Theorem pkce_texts_keep_the_entropy (w1 w2 : World) :
  let raw (w : World) (k n : nat) :=
    map (fun i => entropy (env w) i mod 256) (seq k n) in
  exists p1 p2 w1' w2',
    generatePkce w1 = Returns p1 w1'
    /\ generatePkce w2 = Returns p2 w2'
    /\ (verifier p1 = verifier p2 <->
        raw w1 (cursor w1) 32%nat = raw w2 (cursor w2) 32%nat)
    /\ (state p1 = state p2 <->
        raw w1 (cursor w1 + 32)%nat 16%nat
        = raw w2 (cursor w2 + 32)%nat 16%nat).
Proof.
  intros raw.
  exists {| verifier := base64url (raw w1 (cursor w1) 32%nat);
            challenge :=
              generateCodeChallenge (base64url (raw w1 (cursor w1) 32%nat));
            state := hex (raw w1 (cursor w1 + 32)%nat 16%nat) |},
         {| verifier := base64url (raw w2 (cursor w2) 32%nat);
            challenge :=
              generateCodeChallenge (base64url (raw w2 (cursor w2) 32%nat));
            state := hex (raw w2 (cursor w2 + 32)%nat 16%nat) |},
         (set_cursor (cursor w1 + 32 + 16) w1),
         (set_cursor (cursor w2 + 32 + 16) w2).
  split; [reflexivity|]. split; [reflexivity|].
  cbn [verifier state]. unfold base64url, hex. split; split.
  - intros H. apply (f_equal list_ascii_of_string) in H.
    rewrite !list_ascii_of_string_of_list_ascii in H.
    apply (f_equal unbase64url) in H.
    rewrite !unbase64url_base64url_chars in H by apply entropy_bytes.
    exact H.
  - intros H. now rewrite H.
  - intros H. apply (f_equal list_ascii_of_string) in H.
    rewrite !list_ascii_of_string_of_list_ascii in H.
    apply (f_equal unhex) in H.
    rewrite !unhex_hex_chars in H by apply entropy_bytes.
    exact H.
  - intros H. now rewrite H.
Qed.

(** ** Sample runs of the further properties *)

Lemma saveToken_then_loadToken_witness :
  let t := sample_token "fresh" 0 in
  let w := sample_world {[sample_global_file := FToken (sample_token "old" 0)]}
             0 [] [] in
  exists w', saveToken t true w = Returns tt w' /\ loadToken w' = Returns t w'.
Proof.
  intros t w.
  destruct (saveToken_then_loadToken t true w) as (w' & Hsave & Hload & _).
  { intros _. reflexivity. }
  exists w'. split; assumption.
Defined.

Lemma global_write_is_shadowed_witness :
  let t := sample_token "global" 0 in
  let tp := sample_token "project" 0 in
  let w := sample_world {[sample_project_file := FToken tp]} 0 [] [] in
  exists w', saveToken t true w = Returns tt w' /\ loadToken w' = Returns tp w'.
Proof.
  intros t tp w.
  destruct (global_write_is_shadowed t tp w eq_refl) as (w' & Hsave & _ & Hload).
  exists w'. split; assumption.
Defined.

Lemma getValidAccessToken_failure_keeps_files_witness :
  let now := 1700000000000 in
  let denied :=
    {| r_error := Some "invalid_grant"; r_error_description := None;
       r_access_token := None; r_refresh_token := None; r_expires_in := None;
       r_scope := None; r_token_type := None |} in
  let w := sample_world
             (<[sample_credentials_file := sample_credentials]>
                {[sample_project_file := FToken (sample_token "stored" now)]})
             now [Reply 80 denied] [] in
  fs (final_world (getValidAccessToken w)) = fs w.
Proof.
  intros now denied w.
  apply (getValidAccessToken_failure_keeps_files w
           (final_world (getValidAccessToken w))
           (JsError "Token refresh failed: invalid_grant")).
  vm_compute. reflexivity.
Defined.

Lemma loadCredentials_one_source_witness :
  let w := sample_world {[sample_credentials_file := sample_credentials]}
             0 [] [] in
  fs w !! CREDENTIALS_PATH (env w)
  = Some (FCreds (Some "id") (Some "secret")).
Proof.
  intros w.
  destruct (loadCredentials_one_source w w
              {| client_id := "id"; client_secret := "secret" |} eq_refl)
    as (_ & _ & _ & [Hfile|(Hop & _)]).
  - exact Hfile.
  - discriminate Hop.
Defined.

Lemma loadCredentials_order_witness :
  let vault : gmap string string :=
    <[OP_CLIENT_ID_REF := "vault-id"]> {[OP_CLIENT_SECRET_REF := "vault-secret"]} in
  let with_vault :=
    {| cwd := "/proj"; homedir := "/home/u"; xdg_config_home := None;
       platform := "linux"; op_installed := true; op_vault := vault;
       entropy := fun _ => 0 |} in
  let w (files : gmap string file) :=
    {| env := with_vault; cursor := 0; fs := files; clock := 0;
       endpoint := []; sent := []; inbox := []; listener := new_listener;
       spawned := []; stderr := []; stdout := [] |} in
  let both := w {[sample_credentials_file := sample_credentials]} in
  let half := w {[sample_credentials_file := FCreds (Some "id") None]} in
  let bare := sample_world ∅ 0 [] [] in
  loadCredentials both
    = Returns {| client_id := "id"; client_secret := "secret" |} both
  /\ loadCredentials half
     = Returns {| client_id := "vault-id"; client_secret := "vault-secret" |}
         half
  /\ loadCredentials bare = Throws CredentialsNotFound bare.
Proof.
  intros vault with_vault w both half bare.
  split; [|split].
  - apply (proj1 (loadCredentials_order both));
      [reflexivity | discriminate | discriminate].
  - apply (proj1 (proj2 (loadCredentials_order half)));
      [reflexivity | reflexivity | reflexivity | reflexivity
      | discriminate | discriminate].
  - apply (proj2 (proj2 (loadCredentials_order bare)));
      [reflexivity | left; reflexivity].
Defined.


Lemma ensureGitignore_idempotent_witness :
  let w := sample_world ∅ 0 [] [] in
  let w1 := final_world (ensureGitignore w) in
  ensureGitignore w1 = Returns tt w1.
Proof.
  intros w w1. apply (ensureGitignore_idempotent w w1). reflexivity.
Defined.

Lemma checkAuth_disregards_refresh_witness :
  let now := 1700000000000 in
  let creds := {| client_id := "id"; client_secret := "secret" |} in
  let w (expires : Z) :=
    sample_world
      (<[sample_credentials_file := sample_credentials]>
         {[sample_project_file := FToken (sample_token "stored" expires)]})
      now [Reply 80 (sample_response None None None)] [] in
  checkAuth (w (now + 60000))
    = Returns (true, Some (now + 60000), None) (w (now + 60000))
  /\ checkAuth (w (now - 1)) = Returns (false, Some (now - 1), None) (w (now - 1))
  /\ exists w', getValidAccessToken (w (now - 1))
                = Returns (Some "new-access") w'.
Proof.
  intros now creds w.
  destruct (checkAuth_disregards_refresh (w (now + 60000)) creds false
              (sample_token "stored" (now + 60000)) eq_refl eq_refl)
    as [Hlive _].
  destruct (checkAuth_disregards_refresh (w (now - 1)) creds false
              (sample_token "stored" (now - 1)) eq_refl eq_refl)
    as [_ Hdead].
  destruct Hlive as [Hcheck _]; [vm_compute; reflexivity
                                |vm_compute; reflexivity|].
  destruct (Hdead ltac:(vm_compute; discriminate) 80%N
              (sample_response None None None) [] eq_refl eq_refl)
    as [Hcheck' Hget].
  split; [exact Hcheck|]. split; [exact Hcheck'|exact Hget].
Defined.

Lemma main_auth_without_credentials_witness :
  let w := sample_world ∅ 0 [] [] in
  exists w', main_auth ["auth"] w = Exits 1 w' /\ spawned w' = [].
Proof.
  intros w. eexists. split.
  - apply (main_auth_without_credentials ["auth"] w). reflexivity.
  - reflexivity.
Defined.

Lemma performAuth_failure_keeps_files_witness :
  let old := sample_token "kept" 0 in
  let denied := callback_request [("error", "access_denied")] in
  let w := sample_world
             (<[sample_credentials_file := sample_credentials]>
                {[sample_project_file := FToken old]})
             1000 [] [(10%N, denied)] in
  fs (final_world (performAuth false None w)) !! sample_project_file
  = Some (FToken old).
Proof.
  intros old denied w.
  destruct (performAuth_failure_keeps_files false None w
              (final_world (performAuth false None w))
              (ProviderDenied "access_denied"))
    as (Hproject & _).
  { vm_compute. reflexivity. }
  exact Hproject.
Defined.



Lemma performSetup_saves_loadable_credentials_witness :
  let w := sample_world ∅ 0 [] [] in
  let w' := final_world (performSetup ["1"; "my-id"; "my-secret"] w) in
  exists c, loadCredentials w' = Returns c w'
            /\ client_id c <> EmptyString.
Proof.
  intros w w'.
  destruct (performSetup_saves_loadable_credentials
              ["1"; "my-id"; "my-secret"] w w' eq_refl)
    as [Hsame|(c & _ & Hid & _ & Hload)].
  - apply (f_equal (fun m => m !! sample_credentials_file)) in Hsame.
    vm_compute in Hsame. discriminate Hsame.
  - exists c. split; assumption.
Defined.

Lemma performSetup_asks_before_overwriting_witness :
  let w := sample_world {[sample_credentials_file := sample_credentials]}
             0 [] [] in
  exists w', performSetup ["yes"; "1"; "a"; "b"] w = Returns tt w'
             /\ fs w' = fs w.
Proof.
  intros w.
  destruct (performSetup_asks_before_overwriting "yes" ["1"; "a"; "b"]
              sample_credentials w eq_refl eq_refl)
    as (w' & Hrun & Hfs & _).
  exists w'. split; assumption.
Defined.

Lemma browser_hint_ignored_off_darwin_witness :
  let w := sample_world {[sample_credentials_file := sample_credentials]}
             1000 [] [] in
  performAuth false (Some "Safari") w = performAuth false None w.
Proof.
  intros w. apply (browser_hint_ignored_off_darwin false (Some "Safari") w).
  reflexivity.
Defined.

Lemma download_filename_safe_witness :
  ~ In 47%N (download_filename (Some (units "Re: ../../etc"))
               (units "AAMkAGI2")).
Proof.
  intros Hin.
  destruct (download_filename_safe (Some (units "Re: ../../etc"))
              (units "AAMkAGI2")) as (_ & _ & _ & Hname & _).
  destruct (Hname _ Hin) as [Hc|[Hc|[Hc|Hid]]]; try discriminate.
  vm_compute in Hid. intuition discriminate.
Defined.
